(** * Cloak Exchange: the subscription endpoint and the shared route helpers

    A shallow embedding of
    - [shared/routes.ts]   (src/backend/api-layer.ts): the [api] contract and
      [buildUrl];
    - [shared/schema.ts] and [server/storage.ts]
      (src/frontend/swap-component.tsx): the [subscribers] table, the insert
      schema and [DatabaseStorage];
    - [server/routes.ts] and the [useCreateSubscriber] hook
      (src/architecture/app-structure.tsx): the POST /api/subscribers handler
      and the client mutation function.

    JavaScript strings are modelled by [string], the characters being the
    bytes the database receives, numbers that reach the code as integers
    by [Z], objects by their list of own properties. What the database
    does is modelled from the declaration of the table; a database that is
    down or cut off is outside the model. *)

From Stdlib Require Import ZArith String Ascii DecimalString List Lia.
From stdpp Require Import base option list strings.

Set Warnings "-register-all".
Open Scope Z_scope.
Open Scope string_scope.

(* ===================================================================== *)
(** ** JavaScript values and the string primitives the sources call *)
(* ===================================================================== *)

Module JS.

(** A value as [JSON.parse] (or a caller) hands it over; [VUndefined] is
    what reading an absent property gives. *)
Inductive value : Type :=
| VUndefined
| VNull
| VBool (b : bool)
| VNumber (n : Z)
| VString (s : string)
| VArray (items : list value)
| VObject (props : list (string * value)).

(** [obj[key]]: the first own property with that name, else [undefined]. *)
Fixpoint get (props : list (string * value)) (key : string) : value :=
  match props with
  | [] => VUndefined
  | (k, v) :: rest => if String.eqb k key then v else get rest key
  end.

(** The [string | number] values of [buildUrl]; a number is given by an
    integer literal. *)
Inductive param : Type :=
| PString (s : string)
| PNumber (n : Z).

(** The value of a positive integer literal in the Number type: the
    literal rounded to 53 significant bits, a tie going to the even
    significand; [None] is [Infinity]. *)
Definition to_double (n : Z) : option Z :=
  let bits := Z.log2 n + 1 in
  if (bits <=? 53)%Z then Some n
  else
    let shift := bits - 53 in
    let q := Z.shiftr n shift in
    let r := n - Z.shiftl q shift in
    let half := Z.shiftl 1 (shift - 1) in
    let q' :=
      if (half <? r)%Z || ((r =? half)%Z && Z.odd q) then q + 1 else q in
    let x := Z.shiftl q' shift in
    if (2 ^ 1024 <=? x)%Z then None else Some x.

Definition decimal (n : Z) : string := NilZero.string_of_int (Z.to_int n).

Fixpoint zeros (n : nat) : string :=
  match n with
  | O => EmptyString
  | S n' => String "0" (zeros n')
  end.

(** The number of decimal digits of a positive integer. *)
Definition digits (n : Z) : Z := Z.of_nat (String.length (decimal n)).

(** Number::toString of ECMA-262, step 5, for a positive integer [x] of
    [N] digits: the least [k] and the [s] of [k] digits such that
    [s * 10^(n-k)] is a value that the Number type rounds to [x]; among
    several [s] the one nearest to [x], and of two the even one. [lo] and
    [hi] are twice the least and the greatest value that round to [x],
    [incl] tells whether these two themselves do. The result is [(s, n)]. *)
Fixpoint shortest (fuel : nat) (k x N lo hi : Z) (incl : bool) : Z * Z :=
  match fuel with
  | O => (x, N)
  | S fuel' =>
      let p := 10 ^ (N - k) in
      let c_low := (x / p) * p in
      let c_high := c_low + p in
      let ok := fun c =>
        if incl then (lo <=? 2 * c)%Z && (2 * c <=? hi)%Z
        else (lo <? 2 * c)%Z && (2 * c <? hi)%Z in
      let pick := fun c =>
        if (c / p =? 10 ^ k)%Z then (10 ^ (k - 1), N + 1) else (c / p, N) in
      match ok c_low, ok c_high with
      | true, true =>
          if (x - c_low <? c_high - x)%Z then pick c_low
          else if (c_high - x <? x - c_low)%Z then pick c_high
          else if Z.even (fst (pick c_low)) then pick c_low else pick c_high
      | true, false => pick c_low
      | false, true => pick c_high
      | false, false => shortest fuel' (k + 1) x N lo hi incl
      end
  end.

(** Number::toString for a positive integer of the Number type. Up to 53
    bits the neighbours are no more than 1 apart, so the digits are those
    of [x]. Beyond, the digits are the shortest that give [x] back,
    followed by zeros while [x] is below 10^21 and by an exponent from
    there on. *)
Definition Number_toString (x : Z) : string :=
  let bits := Z.log2 x + 1 in
  if (bits <=? 53)%Z then decimal x
  else
    let shift := bits - 53 in
    let m := Z.shiftr x shift in
    let gap := Z.shiftl 1 shift in
    let gap_below :=
      if (m =? 2 ^ 52)%Z then Z.shiftl 1 (shift - 1) else gap in
    let N := digits x in
    let '(s, n) :=
      shortest (Z.to_nat N) 1 x N (2 * x - gap_below) (2 * x + gap)
        (Z.even m) in
    if (n <=? 21)%Z then decimal s +:+ zeros (Z.to_nat (n - digits s))
    else
      match decimal s with
      | String d EmptyString => String d ("e+" +:+ decimal (n - 1))
      | String d rest => String d ("." +:+ rest +:+ "e+" +:+ decimal (n - 1))
      | EmptyString => EmptyString
      end.

(** [String(value)] *)
Definition String_ (v : param) : string :=
  match v with
  | PString s => s
  | PNumber n =>
      if (n =? 0)%Z then "0"
      else
        let body := match to_double (Z.abs n) with
                    | Some x => Number_toString x
                    | None => "Infinity"
                    end in
        if (n <? 0)%Z then "-" +:+ body else body
  end.

(** [s.indexOf(pat)], [None] standing for -1. *)
Definition indexOf (s pat : string) : option nat := index 0 pat s.

(** [s.includes(pat)] *)
Definition includes (s pat : string) : bool :=
  match indexOf s pat with Some _ => true | None => false end.

(** GetSubstitution of ECMA-262 for a string pattern: there are no
    captures, so of the dollar forms only [$$], [$&], [$`] and [$'] are
    special; any other character, a lone dollar included, is copied. *)
Fixpoint GetSubstitution (matched before after template : string) : string :=
  match template with
  | EmptyString => EmptyString
  | String "$" (String "$" rest) =>
      "$" +:+ GetSubstitution matched before after rest
  | String "$" (String "&" rest) =>
      matched +:+ GetSubstitution matched before after rest
  | String "$" (String "`" rest) =>
      before +:+ GetSubstitution matched before after rest
  | String "$" (String "'" rest) =>
      after +:+ GetSubstitution matched before after rest
  | String c rest => String c (GetSubstitution matched before after rest)
  end.

Definition drop_prefix (n : nat) (s : string) : string :=
  substring n (String.length s - n) s.

(** [s.replace(pat, replacement)] with a string pattern: the first
    occurrence only, the replacement read as a template. *)
Definition replace (s pat replacement : string) : string :=
  match indexOf s pat with
  | None => s
  | Some pos =>
      let before := substring 0 pos s in
      let after := drop_prefix (pos + String.length pat) s in
      before +:+ GetSubstitution pat before after replacement +:+ after
  end.

(** Replacement of the first occurrence by a text taken literally. *)
Definition replace_literal (s pat text : string) : string :=
  match indexOf s pat with
  | None => s
  | Some pos =>
      substring 0 pos s +:+ text +:+ drop_prefix (pos + String.length pat) s
  end.

(** [parts.join(sep)] *)
Fixpoint join (sep : string) (parts : list string) : string :=
  match parts with
  | [] => EmptyString
  | [p] => p
  | p :: rest => p +:+ sep +:+ join sep rest
  end.

(** [s.slice(start)] and [s.slice(start, end)] on integer arguments: a
    negative index counts from the end, every index is clamped to the
    string. *)
Definition slice (s : string) (start : Z) (stop : option Z) : string :=
  let len := Z.of_nat (String.length s) in
  let clamp := fun i => if (i <? 0)%Z then Z.max (len + i) 0 else Z.min i len in
  let from := clamp start in
  let to := match stop with Some e => clamp e | None => len end in
  substring (Z.to_nat from) (Z.to_nat (Z.max (to - from) 0)) s.

End JS.

(* ===================================================================== *)
(** ** Zod: the part of the validator the insert schema uses *)
(* ===================================================================== *)

Module Zod.
Import JS.

(** An entry of [ZodError.errors]. *)
Record ZodIssue : Type := mkIssue {
  message : string;
  path : list string
}.

(** [getParsedType] *)
Definition getParsedType (v : value) : string :=
  match v with
  | VUndefined => "undefined"
  | VNull => "null"
  | VBool _ => "boolean"
  | VNumber _ => "number"
  | VString _ => "string"
  | VArray _ => "array"
  | VObject _ => "object"
  end.

(** The default error map for an [invalid_type] issue. *)
Definition invalid_type (expected : string) (received : value)
    (at_path : list string) : ZodIssue :=
  match received with
  | VUndefined => mkIssue "Required" at_path
  | _ => mkIssue ("Expected " +:+ expected +:+ ", received "
                    +:+ getParsedType received) at_path
  end.

(** A refinement of a string schema ([.email(msg)], [.min(n)], ...): the
    test it runs and the message of the issue it raises. *)
Record ZodCheck : Type := mkCheck {
  test : string -> bool;
  check_message : string
}.

(** [safeParse]: the parsed data, or the issues of the [ZodError] that
    [parse] throws. *)
Inductive SafeParse (A : Type) : Type :=
| Success (data : A)
| Failure (errors : list ZodIssue).
Arguments Success {A} data.
Arguments Failure {A} errors.

Definition failed_checks (checks : list ZodCheck) (s : string)
    (at_path : list string) : list ZodIssue :=
  map (fun c => mkIssue (check_message c) at_path)
      (List.filter (fun c => negb (test c s)) checks).

(** [ZodString._parse]: a non-string is one [invalid_type] issue; on a
    string every check runs and each failing one adds its issue. *)
Definition ZodString_parse (checks : list ZodCheck) (at_path : list string)
    (input : value) : SafeParse string :=
  match input with
  | VString s =>
      match failed_checks checks s at_path with
      | [] => Success s
      | issues => Failure issues
      end
  | _ => Failure [invalid_type "string" input at_path]
  end.

End Zod.

(* ===================================================================== *)
(** ** shared/schema.ts: the table and its insert schema *)
(* ===================================================================== *)

Module Schema.
Import JS Zod.

(** A row of [subscribers] ([typeof subscribers.$inferSelect]): [id] is
    the serial primary key, [email] is not null and unique, [createdAt]
    is nullable and defaults to the time of the insert. *)
Record Subscriber : Type := mkSubscriber {
  id : Z;
  email : string;
  createdAt : option Z
}.

(** [z.infer<typeof insertSubscriberSchema>] *)
Record InsertSubscriber : Type := mkInsert {
  insert_email : string
}.

Abbreviation CreateSubscriberRequest := InsertSubscriber.
Abbreviation SubscriberResponse := Subscriber.

Section InsertSchema.
(** [createInsertSchema] belongs to drizzle-zod: the string checks it
    attaches to the schema of the text column [email] are a parameter
    here. *)
Variable email_checks : list ZodCheck.

(** [createInsertSchema(subscribers).pick({ email: true })]: an object
    schema whose only key is the required string [email]; being an
    object schema in the default mode it drops every other key of its
    input. *)
Definition insertSubscriberSchema (data : value)
    : SafeParse InsertSubscriber :=
  match data with
  | VObject props =>
      match ZodString_parse email_checks ["email"] (get props "email") with
      | Success s => Success (mkInsert s)
      | Failure issues => Failure issues
      end
  | _ => Failure [invalid_type "object" data []]
  end.
End InsertSchema.

(** The generator gives a text column the plain [z.string()]. *)
Definition text_column_checks : list ZodCheck := [].

End Schema.

(* ===================================================================== *)
(** ** shared/routes.ts: the API contract and [buildUrl] *)
(* ===================================================================== *)

Module Routes.
Import JS Zod Schema.

Record Endpoint : Type := mkEndpoint {
  method : string;
  path : string;
  input : value -> SafeParse InsertSubscriber
}.

(** [api.subscribers.create] *)
Definition api_subscribers_create (email_checks : list ZodCheck) : Endpoint :=
  {| method := "POST";
     path := "/api/subscribers";
     input := insertSubscriberSchema email_checks |}.

(** The body of the [forEach] callback of [buildUrl]. *)
Definition substitute (url : string) (entry : string * param) : string :=
  let '(key, value) := entry in
  if includes url (":" +:+ key)
  then replace url (":" +:+ key) (String_ value)
  else url.

(** [buildUrl(path, params)]; [params] is given by [Object.entries]. *)
Definition buildUrl (path : string) (params : option (list (string * param)))
    : string :=
  match params with
  | Some entries => fold_left substitute entries path
  | None => path
  end.

(** What the description of [buildUrl] says of one entry: the first
    [":key"] gives way to the string form of the value, as it stands. *)
Definition substitute_described (url : string) (entry : string * param)
    : string :=
  let '(key, value) := entry in
  replace_literal url (":" +:+ key) (String_ value).

Definition buildUrl_described (path : string)
    (params : option (list (string * param))) : string :=
  match params with
  | Some entries => fold_left substitute_described entries path
  | None => path
  end.

End Routes.

(* ===================================================================== *)
(** ** server/storage.ts: the table behind [db] and [DatabaseStorage] *)
(* ===================================================================== *)

Module Storage.
Import Schema.

(** The state of the [subscribers] table: its rows in insertion order and
    the next value of the sequence behind the serial [id]. *)
Record Db : Type := mkDb {
  rows : list Subscriber;
  id_seq : Z
}.

Definition empty_db : Db := mkDb [] 1.

(** What the database refuses, by the class of the error it raises: a
    duplicate in one of the two unique indexes (23505), a text holding
    U+0000 (22021), an index row beyond the limit of the B-tree (54000),
    a sequence that has given its last value (2200H). *)
Inductive DbError : Type :=
| UniqueViolation (constraint : string)
| InvalidByteSequence
| ProgramLimitExceeded (index : string)
| SequenceExhausted (sequence : string).

Definition has_email (e : string) (db : Db) : bool :=
  existsb (fun r => String.eqb (email r) e) (rows db).

Definition has_id (i : Z) (db : Db) : bool :=
  existsb (fun r => Z.eqb (id r) i) (rows db).

(** A [text] value cannot hold the character U+0000. *)
Fixpoint has_nul (e : string) : bool :=
  match e with
  | EmptyString => false
  | String c rest => Ascii.eqb c "000" || has_nul rest
  end.

(** [serial] is a four-byte integer fed by a sequence that stops at its
    largest value. *)
Definition max_serial : Z := 2147483647.

(** The row of a text in the unique index on [email], the text stored as
    it is: eight bytes of header, the length word (one byte up to 126
    bytes of text, four beyond), the bytes of the text, rounded up to a
    multiple of eight. The B-tree takes rows of at most 2704 bytes. A text
    that the index manages to compress can pass where this bound refuses
    it; the properties below use the bound only as a sufficient condition
    for being accepted. *)
Definition index_row_size (e : string) : Z :=
  let len := Z.of_nat (String.length e) in
  let length_word := if (len <=? 126)%Z then 1 else 4 in
  8 * ((8 + length_word + len + 7) / 8).

Definition index_row_fits (e : string) : bool :=
  (index_row_size e <=? 2704)%Z.

(** The rows selected by
    [db.select().from(subscribers).where(eq(subscribers.email, email))] *)
Definition select_where_email (e : string) (db : Db) : list Subscriber :=
  List.filter (fun r => String.eqb (email r) e) (rows db).

(** [db.insert(subscribers).values(v).returning()] at time [now]. The
    text is refused when the parameter is bound, if it holds U+0000. Then
    the sequence gives the id, unless it is exhausted; a value it has
    given is not given back when the insert fails later. Then the row goes
    into the primary key index and into the unique index on [email], which
    checks for a duplicate before it checks the size of its row. *)
Definition insert_returning (v : InsertSubscriber) (now : Z) (db : Db)
    : (DbError + list Subscriber) * Db :=
  let row := mkSubscriber (id_seq db) (insert_email v) (Some now) in
  if has_nul (email row) then
    (inl InvalidByteSequence, db)
  else if (max_serial <? id_seq db)%Z then
    (inl (SequenceExhausted "subscribers_id_seq"), db)
  else if has_id (id row) db then
    (inl (UniqueViolation "subscribers_pkey"), mkDb (rows db) (id_seq db + 1))
  else if has_email (email row) db then
    (inl (UniqueViolation "subscribers_email_unique"),
     mkDb (rows db) (id_seq db + 1))
  else if negb (index_row_fits (email row)) then
    (inl (ProgramLimitExceeded "subscribers_email_unique"),
     mkDb (rows db) (id_seq db + 1))
  else
    (inr [row], mkDb (rows db ++ [row])%list (id_seq db + 1)).

(** [DatabaseStorage.getSubscriberByEmail]: the first selected row, if
    any. A text holding U+0000 cannot be bound as the parameter of the
    query, which is then rejected; no row of the table holds such a text,
    so the rejection is that of a query which selects nothing. *)
Definition getSubscriberByEmail (e : string) (db : Db)
    : DbError + option SubscriberResponse :=
  match select_where_email e db with
  | subscriber :: _ => inr (Some subscriber)
  | [] => if has_nul e then inl InvalidByteSequence else inr None
  end.

(** [DatabaseStorage.createSubscriber]: the first returned row; an error
    of the insert is the rejection of the promise. *)
Definition createSubscriber (insertSubscriber : CreateSubscriberRequest)
    (now : Z) (db : Db) : (DbError + option SubscriberResponse) * Db :=
  match insert_returning insertSubscriber now db with
  | (inl err, db') => (inl err, db')
  | (inr returned, db') => (inr (head returned), db')
  end.

End Storage.

(* ===================================================================== *)
(** ** server/routes.ts: the POST /api/subscribers handler *)
(* ===================================================================== *)

Module Server.
Import JS Zod Schema Routes Storage.

(** What the handler can throw or rethrow. *)
Inductive exn : Type :=
| ZodError (errors : list ZodIssue)
| TypeError
| DatabaseError (e : DbError).

(** The bodies passed to [res.json]. *)
Inductive Body : Type :=
| SubscriberJson (subscriber : option Subscriber)
| MessageJson (message : string) (field : option string).

Record Response : Type := mkResponse {
  status : Z;
  body : Body
}.

(** The calls made on the [storage] singleton, oldest first. *)
Inductive StorageCall : Type :=
| CallGetSubscriberByEmail (e : string)
| CallCreateSubscriber (v : InsertSubscriber).

Record World : Type := mkWorld {
  store : Db;
  calls : list StorageCall
}.

(** An async computation over the database: it resolves or rejects. *)
Definition Async (A : Type) : Type := World -> (exn + A) * World.

Definition resolve {A} (a : A) : Async A := fun w => (inr a, w).
Definition throw {A} (e : exn) : Async A := fun w => (inl e, w).

Definition bind {A B} (m : Async A) (k : A -> Async B) : Async B :=
  fun w =>
    match m w with
    | (inl e, w') => (inl e, w')
    | (inr a, w') => k a w'
    end.

Definition try_catch {A} (m : Async A) (handler : exn -> Async A) : Async A :=
  fun w =>
    match m w with
    | (inl e, w') => handler e w'
    | (inr a, w') => (inr a, w')
    end.

Notation "'await' x <- m ;; k" := (bind m (fun x => k))
  (at level 10, x name, m at level 99, k at level 200).

(** [schema.parse(data)]: the data, or a thrown [ZodError]. *)
Definition parse {A} (schema : value -> SafeParse A) (data : value) : Async A :=
  match schema data with
  | Success a => resolve a
  | Failure errors => throw (ZodError errors)
  end.

Definition storage_getSubscriberByEmail (e : string)
    : Async (option SubscriberResponse) :=
  fun w =>
    let trace := (calls w ++ [CallGetSubscriberByEmail e])%list in
    match getSubscriberByEmail e (store w) with
    | inl err => (inl (DatabaseError err), mkWorld (store w) trace)
    | inr subscriber => (inr subscriber, mkWorld (store w) trace)
    end.

Definition storage_createSubscriber (now : Z) (v : CreateSubscriberRequest)
    : Async (option SubscriberResponse) :=
  fun w =>
    let trace := (calls w ++ [CallCreateSubscriber v])%list in
    match createSubscriber v now (store w) with
    | (inl err, db') => (inl (DatabaseError err), mkWorld db' trace)
    | (inr subscriber, db') => (inr subscriber, mkWorld db' trace)
    end.

Definition json (code : Z) (b : Body) : Async Response :=
  resolve (mkResponse code b).

Section Handler.
Variable email_checks : list ZodCheck.

(** The [catch] clause: a [ZodError] is answered 400 with the message and
    the dotted path of its first issue, anything else is rethrown. *)
Definition on_error (err : exn) : Async Response :=
  match err with
  | ZodError errors =>
      match errors with
      | first :: _ =>
          json 400 (MessageJson (message first) (Some (join "." (Zod.path first))))
      | [] => throw TypeError
      end
  | _ => throw err
  end.

(** Step 1 of the handler: the schema of the contract applied to
    [req.body]. *)
Definition validate (req_body : value) : SafeParse InsertSubscriber :=
  input (api_subscribers_create email_checks) req_body.

(** The callback of [app.post(api.subscribers.create.path, ...)], run on
    [req.body] with the insert, if any, stamped [now]. *)
Definition handler (now : Z) (req_body : value) : Async Response :=
  try_catch
    (await input <- parse validate req_body ;;
     await existing <- storage_getSubscriberByEmail (insert_email input) ;;
     match existing with
     | Some _ => json 409 (MessageJson "Email already subscribed" None)
     | None =>
         await subscriber <- storage_createSubscriber now input ;;
         json 201 (SubscriberJson subscriber)
     end)
    on_error.

(** The same callback cut at its two [await]s, for requests in flight
    together: [Received] has run nothing, [Validated] waits for the lookup,
    [Checked] for the insert. *)
Inductive task : Type :=
| Received (req_body : value)
| Validated (input : InsertSubscriber)
| Checked (input : InsertSubscriber)
| Finished (result : exn + Response).

Definition finish (r : (exn + Response) * World) : task * World :=
  (Finished (fst r), snd r).

Definition step (now : Z) (t : task) (w : World) : task * World :=
  match t with
  | Received req_body =>
      match validate req_body with
      | Success input => (Validated input, w)
      | Failure errors => finish (on_error (ZodError errors) w)
      end
  | Validated input =>
      match storage_getSubscriberByEmail (insert_email input) w with
      | (inr (Some _), w') =>
          finish (json 409 (MessageJson "Email already subscribed" None) w')
      | (inr None, w') => (Checked input, w')
      | (inl err, w') => finish (on_error err w')
      end
  | Checked input =>
      match storage_createSubscriber now input w with
      | (inr subscriber, w') => finish (json 201 (SubscriberJson subscriber) w')
      | (inl err, w') => finish (on_error err w')
      end
  | Finished _ => (t, w)
  end.

(** The requests in flight and the order in which the event loop resumes
    them: an event names the request and the time of its step. *)
Definition pool_step (ev : nat * Z) (st : list task * World)
    : list task * World :=
  let '(i, now) := ev in
  let '(p, w) := st in
  match p !! i with
  | Some t => let '(t', w') := step now t w in (<[i := t']> p, w')
  | None => (p, w)
  end.

Definition run (schedule : list (nat * Z)) (st : list task * World)
    : list task * World :=
  fold_left (fun st ev => pool_step ev st) schedule st.

(** One request served alone. *)
Definition subscribe (now : Z) (req_body : value) (db : Db)
    : (exn + Response) * Db :=
  let '(r, w) := handler now req_body (mkWorld db []) in (r, store w).

(** The error middleware of the server set-up answers a rejected handler. *)
Definition error_middleware (result : exn + Response) : Response :=
  match result with
  | inr response => response
  | inl _ => mkResponse 500 (MessageJson "Internal server error" None)
  end.

Definition serve (now : Z) (req_body : value) (w : World) : Response * World :=
  let '(result, w') := handler now req_body w in (error_middleware result, w').

End Handler.

Abbreviation pool := (list task).

(** The outcomes of the operation as its callers tell them apart. *)
Inductive Outcome : Type :=
| Created
| ValidationError
| ConflictError
| InternalError.

Definition outcome (result : exn + Response) : Outcome :=
  match result with
  | inl _ => InternalError
  | inr response =>
      if (status response =? 201)%Z then Created
      else if (status response =? 400)%Z then ValidationError
      else if (status response =? 409)%Z then ConflictError
      else InternalError
  end.

End Server.

(* ===================================================================== *)
(** ** client hook: the mutation function of [useCreateSubscriber] *)
(* ===================================================================== *)

Module Client.
Import JS Zod Schema Routes Storage Server.

(** What [mutationFn] throws: the [ZodError] of its own validation, or the
    [Error] it builds from the answer. *)
Inductive failure : Type :=
| ClientZodError (errors : list ZodIssue)
| Error (message : string).

(** [JSON.stringify(validated)] as the server's body parser reads it back. *)
Definition wire (validated : CreateSubscriberRequest) : value :=
  VObject [("email", VString (insert_email validated))].

Section Mutation.
Variable email_checks : list ZodCheck.

(** The validation before the request is sent: the schema of the contract
    applied to the data of the form. *)
Definition validate (data : value) : SafeParse InsertSubscriber :=
  input (api_subscribers_create email_checks) data.

(** [mutationFn(data)], [fetch] being the round trip to the server; the
    world is left untouched when nothing is sent. *)
Definition mutationFn (fetch : value -> World -> Response * World)
    (data : value) (w : World) : (failure + Body) * World :=
  match validate data with
  | Failure errors => (inl (ClientZodError errors), w)
  | Success validated =>
      let '(res, w') := fetch (wire validated) w in
      if (200 <=? status res)%Z && (status res <=? 299)%Z then
        (inr (body res), w')
      else if ((status res =? 400)%Z || (status res =? 409)%Z)%bool then
        match body res with
        | MessageJson message _ => (inl (Error message), w')
        | SubscriberJson _ =>
            (inl (ClientZodError [mkIssue "Required" ["message"]]), w')
        end
      else (inl (Error "Failed to subscribe"), w')
  end.

End Mutation.

Section Retry.
Variable email_checks : list ZodCheck.

(** [createSubscriber.mutate(data)] under the query client's
    [mutations: { retry: 1 }]: an attempt that throws is made once more,
    and the second attempt decides. *)
Definition mutate (first second : value -> World -> Response * World)
    (data : value) (w : World) : (failure + Body) * World :=
  match mutationFn email_checks first data w with
  | (inr b, w') => (inr b, w')
  | (inl _, w') => mutationFn email_checks second data w'
  end.

End Retry.
End Client.

(* ===================================================================== *)
(** ** pages/Landing.tsx: the subscription form *)
(* ===================================================================== *)

Module Landing.
Import JS Zod Schema Routes Storage Server Client.

Section Form.
Variable email_checks : list ZodCheck.

(** [handleSubscribe]: on the state [email] of the form; an empty field
    sends nothing, and [onSuccess] empties the field. *)
Definition handleSubscribe (first second : value -> World -> Response * World)
    (email : string) (w : World) : string * World :=
  if String.eqb email EmptyString then (email, w)
  else
    match mutate email_checks first second
            (VObject [("email", VString email)]) w with
    | (inr _, w') => (EmptyString, w')
    | (inl _, w') => (email, w')
    end.

End Form.
End Landing.

(* ===================================================================== *)
(** ** components/SimulatedSwap.tsx: the connected wallet display *)
(* ===================================================================== *)

Module Swap.
Import JS.

(** The text shown for a connected wallet:
    [{key.slice(0, 6)}...{key.slice(-4)}], [key] being the base58 form of
    the public key. *)
Definition wallet_label (key : string) : string :=
  slice key 0 (Some 6) +:+ "..." +:+ slice key (-4) None.

End Swap.

(* ===================================================================== *)
(** ** Vocabulary of the properties *)
(* ===================================================================== *)

Import JS Zod Schema Routes Storage Server Client Landing Swap.

(** The request body that carries exactly the field [email]. *)
Definition email_body (e : string) : value := VObject [("email", VString e)].

(** The email-format rule is the schema's rule for the field [email]. *)
Definition email_rule (checks : list ZodCheck) (field : value) : bool :=
  match ZodString_parse checks ["email"] field with
  | Success _ => true
  | Failure _ => false
  end.

Definition valid_email (checks : list ZodCheck) (e : string) : Prop :=
  email_rule checks (VString e) = true.

Definition stored (e : string) (db : Db) : Prop :=
  exists r, In r (rows db) /\ email r = e.

(** A text the database accepts as an email: no U+0000 in it, and an
    index row within the limit. *)
Definition storable (e : string) : Prop :=
  has_nul e = false /\ index_row_fits e = true.

(** The sequence can give [n] more ids. *)
Definition ids_left (n : Z) (db : Db) : Prop :=
  id_seq db + n <= max_serial + 1.

(** Every primary key in the table came out of the sequence. *)
Definition ids_below_seq (db : Db) : Prop :=
  Forall (fun r => id r < id_seq db) (rows db).

Definition unique_emails (db : Db) : Prop :=
  NoDup (map email (rows db)).

(** The client throws its validation error and sends nothing, whatever the
    server would answer. *)
Definition client_rejects (checks : list ZodCheck) (data : value) : Prop :=
  exists errors, forall fetch w,
    mutationFn checks fetch data w = (inl (ClientZodError errors), w).

(** The server answers 400 and touches nothing. *)
Definition server_rejects (checks : list ZodCheck) (req_body : value) : Prop :=
  forall now w, exists b,
    handler checks now req_body w = (inr (mkResponse 400 b), w).

Definition conflict_response : Response :=
  mkResponse 409 (MessageJson "Email already subscribed" None).

Definition created_response (s : Subscriber) : Response :=
  mkResponse 201 (SubscriberJson (Some s)).

(** Store states that sequences of [subscribe] calls lead to. *)
Inductive reachable (checks : list ZodCheck) : Db -> Prop :=
| reach_empty : reachable checks empty_db
| reach_subscribe now req_body db :
    reachable checks db ->
    reachable checks (snd (subscribe checks now req_body db)).


(** A text that passes the schema and that the database refuses: the
    letter [a] followed by U+0000. *)
Definition nul_email : string := String "a" (String "000" EmptyString).

(** The empty table when the sequence is at its last value. *)
Definition last_id_db : Db := mkDb [] max_serial.

Definition one_subscriber : Db :=
  mkDb [mkSubscriber 1 "a@example.com" (Some 1000)] 2.

(** [n] requests with the same body, all just received. *)
Definition same_requests (e : string) (n : nat) : pool :=
  repeat (Received (email_body e)) n.

(** How often a schedule resumes request [i]; a request needs three steps
    at most, so a schedule that gives every one of the [n] requests three
    turns lets them all finish. *)
Definition turns (i : nat) (schedule : list (nat * Z)) : nat :=
  length (List.filter (fun ev => Nat.eqb (fst ev) i) schedule).

Definition complete (n : nat) (schedule : list (nat * Z)) : Prop :=
  forall i, (i < n)%nat -> (3 <= turns i schedule)%nat.

Definition remaining (t : task) : nat :=
  match t with
  | Received _ => 3
  | Validated _ => 2
  | Checked _ => 1
  | Finished _ => 0
  end.

Definition Outcome_eqb (a b : Outcome) : bool :=
  match a, b with
  | Created, Created | ValidationError, ValidationError
  | ConflictError, ConflictError | InternalError, InternalError => true
  | _, _ => false
  end.

Definition has_outcome (o : Outcome) (t : task) : bool :=
  match t with
  | Finished r => Outcome_eqb (outcome r) o
  | _ => false
  end.

Definition count_outcome (o : Outcome) (p : pool) : nat :=
  length (List.filter (has_outcome o) p).

(** The rows that hold the email [e]. *)
Definition copies (e : string) (db : Db) : nat :=
  length (select_where_email e db).

Definition email_violation : exn :=
  DatabaseError (UniqueViolation "subscribers_email_unique").

(** The states a request for the email [e] goes through. *)
Definition task_ok (e : string) (t : task) : Prop :=
  match t with
  | Received req_body => req_body = email_body e
  | Validated input | Checked input => input = mkInsert e
  | Finished r =>
      r = inr conflict_response \/
      (exists s, r = inr (created_response s) /\ email s = e) \/
      r = inl email_violation
  end.

(** Where a request for [e] stands after [k] turns while no row holds
    [e]: received, validated, past a lookup that missed. *)
Definition stage (e : string) (k : nat) : task :=
  match k with
  | 0%nat => Received (email_body e)
  | 1%nat => Validated (mkInsert e)
  | _ => Checked (mkInsert e)
  end.

(** How a request for [e] ends once a row holds [e]: a request that has
    not looked up yet will find the row; one that is past its lookup will
    have its insert refused by the unique index. *)
Definition settle (e : string) (t : task) : task :=
  match t with
  | Received _ | Validated _ => Finished (inr conflict_response)
  | Checked _ => Finished (inl email_violation)
  | Finished _ => t
  end.

Definition is_checked (t : task) : bool :=
  match t with Checked _ => true | _ => false end.

Definition count_checked (p : pool) : nat :=
  length (List.filter is_checked p).

(** What holds of the requests for [e] in flight once a row holds [e]. *)
Record settled_inv (e : string) (p : pool) (w : World) : Prop := mkSettled {
  settled_tasks : Forall (task_ok e) p;
  settled_stored : stored e (store w);
  settled_ids : ids_below_seq (store w);
  settled_left : ids_left (Z.of_nat (count_checked p)) (store w)
}.

(** Two requests for the same new email, resumed in turn. *)
Definition two_requests : pool * World :=
  (same_requests "a@example.com" 2, mkWorld empty_db []).

Definition alternating : list (nat * Z) :=
  [(0%nat, 1); (1%nat, 2); (0%nat, 3); (1%nat, 4); (0%nat, 5); (1%nat, 6)].

(** What is claimed of [n] requests for the same new email served under a
    schedule: one 201, [n - 1] answers 409, one row. *)
Definition one_created_rest_conflict (checks : list ZodCheck) (e : string)
    (n : nat) (schedule : list (nat * Z)) (db : Db) : Prop :=
  let final := run checks schedule (same_requests e n, mkWorld db []) in
  count_outcome Created (fst final) = 1%nat /\
  count_outcome ConflictError (fst final) = (n - 1)%nat /\
  copies e (store (snd final)) = 1%nat.

(** Whether a text holds a dollar sign. *)
Fixpoint has_dollar (s : string) : bool :=
  match s with
  | EmptyString => false
  | String c rest => Ascii.eqb c "$" || has_dollar rest
  end.

(** Whether a text holds the character [c]. *)
Fixpoint has_char (c : ascii) (s : string) : bool :=
  match s with
  | EmptyString => false
  | String a rest => Ascii.eqb a c || has_char c rest
  end.

Definition is_number (v : param) : bool :=
  match v with PNumber _ => true | PString _ => false end.

Definition unique_ids (db : Db) : Prop :=
  NoDup (map id (rows db)).

(** The three invariants of the table together. *)
Definition table_ok (db : Db) : Prop :=
  ids_below_seq db /\ unique_ids db /\ unique_emails db.

(** Requests just received, one for each of the given emails. *)
Definition requests_for (emails : list string) : pool :=
  map (fun e => Received (email_body e)) emails.

(** Request [i] asks for the email [e]; it has not touched the table while
    it is under way, and once finished it was answered 201 with a row that
    is in the table. *)
Definition undisturbed (e : string) (t : task) (w : World) : Prop :=
  task_ok e t /\
  ((0 < remaining t)%nat -> ~ stored e (store w)) /\
  (forall r, t = Finished r ->
     exists s, r = inr (created_response s) /\ email s = e /\
               In s (rows (store w))).

Record distinct_inv (emails : list string) (p : pool) (w : World) : Prop :=
  mkDistinctInv {
    dist_length : length p = length emails;
    dist_ids : ids_below_seq (store w);
    dist_left :
      ids_left (Z.of_nat (length emails - count_outcome Created p)) (store w);
    dist_tasks :
      forall i e t, emails !! i = Some e -> p !! i = Some t ->
                    undisturbed e t w
  }.

(** Proof steps that recur: unfolding the handler down to the storage
    calls, and the tests of an insert. *)
Ltac unfold_handler :=
  unfold subscribe, handler, try_catch, bind, parse, Server.validate,
    storage_getSubscriberByEmail, storage_createSubscriber, createSubscriber,
    on_error, json, resolve, throw; cbn [input api_subscribers_create].

(** The tests of an insert, one after the other. *)
Ltac insert_cases v db :=
  unfold insert_returning; cbn [id email];
  destruct (has_nul (insert_email v)) eqn:?;
  [| destruct (max_serial <? id_seq db)%Z eqn:?;
     [| destruct (has_id (id_seq db) db) eqn:?;
        [| destruct (has_email (insert_email v) db) eqn:?;
           [| destruct (index_row_fits (insert_email v)) eqn:?;
              cbn [negb]]]]].

(* ===================================================================== *)
(** ** Parsing *)
(* ===================================================================== *)

Lemma email_rule_success checks field :
  email_rule checks field = true ->
  exists e, field = VString e /\
            ZodString_parse checks ["email"] field = Success e.
Proof.
  unfold email_rule, ZodString_parse.
  destruct field; try discriminate.
  destruct (failed_checks checks s ["email"]); [eauto | discriminate].
Qed.

Lemma valid_email_parse checks e :
  valid_email checks e ->
  ZodString_parse checks ["email"] (VString e) = Success e.
Proof.
  intros H. apply email_rule_success in H as (e' & Heq & Hp).
  injection Heq as <-. exact Hp.
Qed.

Lemma parse_picks_email checks props e :
  get props "email" = VString e ->
  valid_email checks e ->
  insertSubscriberSchema checks (VObject props) = Success (mkInsert e).
Proof.
  intros Hget Hv. unfold insertSubscriberSchema.
  rewrite Hget, (valid_email_parse _ _ Hv). reflexivity.
Qed.

Lemma failed_checks_path checks s p :
  Forall (fun i => Zod.path i = p) (failed_checks checks s p).
Proof.
  unfold failed_checks. apply List.Forall_forall. intros i Hi.
  apply in_map_iff in Hi as (c & <- & _). reflexivity.
Qed.

(** A rejected field yields at least one issue, each located at the field,
    and the first message is the type complaint or that of a check. *)
Lemma email_rule_failure checks field :
  email_rule checks field = false ->
  exists first rest,
    ZodString_parse checks ["email"] field = Failure (first :: rest) /\
    Zod.path first = ["email"] /\
    (message first = message (invalid_type "string" field ["email"]) \/
     exists c, In c checks /\ message first = check_message c).
Proof.
  unfold email_rule, ZodString_parse. intros H.
  destruct field;
    try (eexists _, []; split; [reflexivity | split; [|left; reflexivity]];
         simpl; reflexivity).
  pose proof (failed_checks_path checks s ["email"]) as Hp.
  unfold failed_checks in *.
  destruct (List.filter (fun c => negb (test c s)) checks) as [|c cs] eqn:Hf;
    simpl in *; [discriminate|].
  eexists _, _. split; [reflexivity|]. split; [reflexivity|].
  right. exists c. split; [|reflexivity].
  assert (Hin : In c (c :: cs)) by (left; reflexivity).
  rewrite <- Hf in Hin. apply filter_In in Hin. tauto.
Qed.

Lemma parse_never_empty checks data :
  insertSubscriberSchema checks data <> Failure [].
Proof.
  unfold insertSubscriberSchema.
  destruct data; try discriminate.
  destruct (email_rule checks (get props "email")) eqn:Hr.
  - apply email_rule_success in Hr as (e & _ & ->). discriminate.
  - apply email_rule_failure in Hr as (i & rest & -> & _). discriminate.
Qed.

(** With the plain string schema of a text column every string passes. *)
Lemma text_column_accepts_every_string e : valid_email text_column_checks e.
Proof. reflexivity. Qed.

(* ===================================================================== *)
(** ** The table *)
(* ===================================================================== *)

Lemma has_email_stored e db : has_email e db = true <-> stored e db.
Proof.
  unfold has_email, stored. rewrite existsb_exists.
  split; intros (r & Hin & He); exists r; split; auto;
    apply String.eqb_eq; exact He.
Qed.

Lemma not_stored_has_email e db : ~ stored e db -> has_email e db = false.
Proof.
  intros H. destruct (has_email e db) eqn:Hh; [|reflexivity].
  apply has_email_stored in Hh. contradiction.
Qed.

Lemma classic_stored e db : stored e db \/ ~ stored e db.
Proof.
  destruct (has_email e db) eqn:Hh.
  - left. apply has_email_stored. exact Hh.
  - right. intros Hs. apply has_email_stored in Hs. congruence.
Qed.

Lemma select_stored e db :
  stored e db <-> exists r l, select_where_email e db = r :: l.
Proof.
  unfold stored, select_where_email. split.
  - intros (r & Hin & He).
    assert (In r (List.filter (fun r => (email r =? e)%string) (rows db))) as Hr
      by (apply filter_In; split; [exact Hin | apply String.eqb_eq; exact He]).
    destruct (List.filter _ (rows db)) as [|r' l]; [destruct Hr | eauto].
  - intros (r & l & Hf). exists r.
    assert (In r (r :: l)) as Hr by (left; reflexivity).
    rewrite <- Hf in Hr. apply filter_In in Hr as [Hin He].
    split; [exact Hin | apply String.eqb_eq; exact He].
Qed.

Lemma select_not_stored e db : ~ stored e db -> select_where_email e db = [].
Proof.
  intros Hn. destruct (select_where_email e db) as [|r l] eqn:Hs;
    [reflexivity|].
  exfalso. apply Hn, select_stored. eauto.
Qed.

Lemma lookup_hit e db :
  stored e db -> exists r, getSubscriberByEmail e db = inr (Some r).
Proof.
  intros Hs. apply select_stored in Hs as (r & l & Hs).
  exists r. unfold getSubscriberByEmail. rewrite Hs. reflexivity.
Qed.

Lemma lookup_miss e db :
  ~ stored e db -> has_nul e = false ->
  getSubscriberByEmail e db = inr None.
Proof.
  intros Hn Hz. unfold getSubscriberByEmail.
  rewrite (select_not_stored e db Hn), Hz. reflexivity.
Qed.

Lemma lookup_refused e db :
  ~ stored e db -> has_nul e = true ->
  getSubscriberByEmail e db = inl InvalidByteSequence.
Proof.
  intros Hn Hz. unfold getSubscriberByEmail.
  rewrite (select_not_stored e db Hn), Hz. reflexivity.
Qed.

Lemma fresh_id db : ids_below_seq db -> has_id (id_seq db) db = false.
Proof.
  unfold ids_below_seq, has_id. intros H.
  destruct (existsb _ (rows db)) eqn:He; [|reflexivity].
  apply existsb_exists in He as (r & Hin & Hr).
  rewrite List.Forall_forall in H. specialize (H r Hin).
  apply Z.eqb_eq in Hr. lia.
Qed.

Lemma sequence_gives db :
  ids_left 1 db -> (max_serial <? id_seq db)%Z = false.
Proof. unfold ids_left. intros H. apply Z.ltb_ge. lia. Qed.

Lemma ids_left_le n m db : m <= n -> ids_left n db -> ids_left m db.
Proof. unfold ids_left. lia. Qed.
(* ===================================================================== *)
(** ** The handler, one request at a time *)
(* ===================================================================== *)

Lemma handler_rejects checks now props w first rest :
  ZodString_parse checks ["email"] (get props "email") = Failure (first :: rest) ->
  Zod.path first = ["email"] ->
  handler checks now (VObject props) w
    = (inr (mkResponse 400 (MessageJson (message first) (Some "email"))), w).
Proof.
  intros Hp Hpath. unfold_handler. unfold insertSubscriberSchema.
  rewrite Hp. cbn. rewrite Hpath. reflexivity.
Qed.

Lemma handler_conflict checks now props e w :
  get props "email" = VString e ->
  valid_email checks e ->
  stored e (store w) ->
  handler checks now (VObject props) w
    = (inr conflict_response,
       mkWorld (store w) (calls w ++ [CallGetSubscriberByEmail e])%list).
Proof.
  intros Hget Hv Hs.
  pose proof (parse_picks_email _ _ _ Hget Hv) as Hp.
  destruct (lookup_hit _ _ Hs) as (r & Hr).
  unfold_handler. rewrite Hp. cbn. rewrite Hr. reflexivity.
Qed.

Lemma insert_fresh e now db :
  storable e ->
  ids_left 1 db ->
  ids_below_seq db ->
  ~ stored e db ->
  insert_returning (mkInsert e) now db
    = (inr [mkSubscriber (id_seq db) e (Some now)],
       mkDb (rows db ++ [mkSubscriber (id_seq db) e (Some now)])
            (id_seq db + 1)).
Proof.
  intros [Hz Hf] Hleft Hids Hn. unfold insert_returning. cbn.
  rewrite Hz, (sequence_gives _ Hleft), (fresh_id _ Hids),
    (not_stored_has_email _ _ Hn), Hf.
  reflexivity.
Qed.

Lemma handler_creates checks now props e w :
  get props "email" = VString e ->
  valid_email checks e ->
  storable e ->
  ids_left 1 (store w) ->
  ids_below_seq (store w) ->
  ~ stored e (store w) ->
  handler checks now (VObject props) w
    = (inr (created_response (mkSubscriber (id_seq (store w)) e (Some now))),
       mkWorld
         (mkDb (rows (store w)
                  ++ [mkSubscriber (id_seq (store w)) e (Some now)])
               (id_seq (store w) + 1))
         (calls w ++ [CallGetSubscriberByEmail e]
                  ++ [CallCreateSubscriber (mkInsert e)])%list).
Proof.
  intros Hget Hv Hst Hleft Hids Hn.
  pose proof (parse_picks_email _ _ _ Hget Hv) as Hp.
  unfold_handler. rewrite Hp. cbn.
  rewrite (lookup_miss _ _ Hn (proj1 Hst)),
    (insert_fresh _ _ _ Hst Hleft Hids Hn).
  cbn. rewrite <- app_assoc. reflexivity.
Qed.

Lemma email_body_get e : get [("email", VString e)] "email" = VString e.
Proof. reflexivity. Qed.

(** What an insert does to the invariants of the table. *)
Lemma insert_keeps_ids v now db :
  ids_below_seq db -> ids_below_seq (snd (insert_returning v now db)).
Proof.
  unfold ids_below_seq. intros H.
  assert (Forall (fun r => id r < id_seq db + 1) (rows db)) as H'
    by (eapply Forall_impl; [exact H | cbn; intros; lia]).
  insert_cases v db; cbn [snd rows id_seq]; try assumption.
  apply Forall_app. split; [exact H'|].
  constructor; [cbn; lia | constructor].
Qed.

Lemma insert_keeps_unique v now db :
  unique_emails db -> unique_emails (snd (insert_returning v now db)).
Proof.
  unfold unique_emails. intros H.
  insert_cases v db; cbn [snd rows]; try assumption.
  rewrite map_app. cbn. apply NoDup_app. split; [exact H|].
  split; [|apply NoDup_singleton].
  intros x Hx Hx'. apply list_elem_of_singleton in Hx'. subst x.
  apply list_elem_of_In, in_map_iff in Hx as (r & Hr & Hin).
  assert (has_email (insert_email v) db = true) as Ht
    by (apply has_email_stored; exists r; auto).
  congruence.
Qed.

Lemma insert_rejected_keeps_rows v now db err db' :
  insert_returning v now db = (inl err, db') -> rows db' = rows db.
Proof.
  insert_cases v db; intros [= _ <-]; reflexivity.
Qed.

(** Why an insert is rejected. *)
Lemma insert_rejected_cases v now db err db' :
  insert_returning v now db = (inl err, db') ->
  (err = InvalidByteSequence /\ has_nul (insert_email v) = true) \/
  (err = SequenceExhausted "subscribers_id_seq" /\ ~ ids_left 1 db) \/
  (err = UniqueViolation "subscribers_pkey" /\ ~ ids_below_seq db) \/
  (err = UniqueViolation "subscribers_email_unique" /\
   stored (insert_email v) db) \/
  (err = ProgramLimitExceeded "subscribers_email_unique" /\
   index_row_fits (insert_email v) = false).
Proof.
  insert_cases v db; intros [= <- _].
  - left. auto.
  - right. left. split; [reflexivity|].
    unfold ids_left. apply Z.ltb_lt in Heqb0. lia.
  - right. right. left. split; [reflexivity|].
    intros Hids. rewrite (fresh_id _ Hids) in Heqb1. discriminate.
  - right. right. right. left. split; [reflexivity|].
    apply has_email_stored. assumption.
  - right. right. right. right. auto.
Qed.

(** The table after a request is the table before it, or that table after
    one insert. *)
Lemma handler_store checks now req_body w :
  store (snd (handler checks now req_body w)) = store w \/
  exists v,
    store (snd (handler checks now req_body w))
      = snd (insert_returning v now (store w)).
Proof.
  unfold_handler.
  destruct (insertSubscriberSchema checks req_body) as [v|errors]; cbn.
  - destruct (getSubscriberByEmail (insert_email v) (store w)) as [err|[r|]];
      cbn; [left; reflexivity | left; reflexivity |].
    right. exists v.
    destruct (insert_returning v now (store w)) as [[err|rs] db']; reflexivity.
  - left. destruct errors; reflexivity.
Qed.

Lemma subscribe_store checks now req_body db :
  snd (subscribe checks now req_body db)
    = store (snd (handler checks now req_body (mkWorld db []))).
Proof.
  unfold subscribe. destruct (handler _ _ _ _). reflexivity.
Qed.

Lemma subscribe_keeps_unique checks now req_body db :
  unique_emails db -> unique_emails (snd (subscribe checks now req_body db)).
Proof.
  intros H. rewrite subscribe_store.
  destruct (handler_store checks now req_body (mkWorld db [])) as [-> | (v & ->)];
    [exact H | apply insert_keeps_unique; exact H].
Qed.

Lemma subscribe_keeps_ids checks now req_body db :
  ids_below_seq db -> ids_below_seq (snd (subscribe checks now req_body db)).
Proof.
  intros H. rewrite subscribe_store.
  destruct (handler_store checks now req_body (mkWorld db [])) as [-> | (v & ->)];
    [exact H | apply insert_keeps_ids; exact H].
Qed.



Lemma handler_invalid checks now req_body w first rest :
  Server.validate checks req_body = Failure (first :: rest) ->
  handler checks now req_body w
    = (inr (mkResponse 400
              (MessageJson (message first) (Some (join "." (Zod.path first))))),
       w).
Proof.
  unfold Server.validate. cbn [input api_subscribers_create].
  intros Hp. unfold_handler. rewrite Hp. reflexivity.
Qed.

(** The five ways a request can go. *)
Lemma handler_cases checks now req_body w :
  (exists first rest,
     Server.validate checks req_body = Failure (first :: rest) /\
     handler checks now req_body w
       = (inr (mkResponse 400
                 (MessageJson (message first)
                              (Some (join "." (Zod.path first))))), w)) \/
  (exists v,
     Server.validate checks req_body = Success v /\
     stored (insert_email v) (store w) /\
     handler checks now req_body w
       = (inr conflict_response,
          mkWorld (store w)
            (calls w ++ [CallGetSubscriberByEmail (insert_email v)])%list)) \/
  (exists v,
     Server.validate checks req_body = Success v /\
     ~ stored (insert_email v) (store w) /\
     has_nul (insert_email v) = true /\
     handler checks now req_body w
       = (inl (DatabaseError InvalidByteSequence),
          mkWorld (store w)
            (calls w ++ [CallGetSubscriberByEmail (insert_email v)])%list)) \/
  (exists v s db',
     Server.validate checks req_body = Success v /\
     ~ stored (insert_email v) (store w) /\
     has_nul (insert_email v) = false /\
     createSubscriber v now (store w) = (inr (Some s), db') /\
     handler checks now req_body w
       = (inr (created_response s),
          mkWorld db'
            (calls w ++ [CallGetSubscriberByEmail (insert_email v);
                         CallCreateSubscriber v])%list)) \/
  (exists v err db',
     Server.validate checks req_body = Success v /\
     ~ stored (insert_email v) (store w) /\
     has_nul (insert_email v) = false /\
     createSubscriber v now (store w) = (inl err, db') /\
     handler checks now req_body w
       = (inl (DatabaseError err),
          mkWorld db'
            (calls w ++ [CallGetSubscriberByEmail (insert_email v);
                         CallCreateSubscriber v])%list)).
Proof.
  destruct (Server.validate checks req_body) as [v|errors] eqn:Hv.
  - right.
    assert (insertSubscriberSchema checks req_body = Success v) as Hp
      by exact Hv.
    destruct (classic_stored (insert_email v) (store w)) as [Hs|Hn].
    + left. exists v. split; [reflexivity|]. split; [exact Hs|].
      destruct (lookup_hit _ _ Hs) as (r & Hr).
      unfold_handler. rewrite Hp. cbn. rewrite Hr. reflexivity.
    + right. destruct (has_nul (insert_email v)) eqn:Hz.
      * left. exists v. repeat split; auto.
        unfold_handler. rewrite Hp. cbn.
        rewrite (lookup_refused _ _ Hn Hz). reflexivity.
      * right.
        assert (forall res db',
                  createSubscriber v now (store w) = (res, db') ->
                  handler checks now req_body w
                  = (match res with
                     | inl err => inl (DatabaseError err)
                     | inr sub => inr (mkResponse 201 (SubscriberJson sub))
                     end,
                     mkWorld db'
                       (calls w ++ [CallGetSubscriberByEmail (insert_email v);
                                    CallCreateSubscriber v])%list)) as Hh.
        { intros res db' Hc. unfold createSubscriber in Hc.
          unfold_handler. rewrite Hp. cbn. rewrite (lookup_miss _ _ Hn Hz).
          cbn.
          destruct (insert_returning v now (store w)) as [[err|rs] d];
            injection Hc as <- <-; cbn; rewrite <- app_assoc; reflexivity. }
        destruct (createSubscriber v now (store w)) as [[err|sub] db'] eqn:Hc.
        -- right. exists v, err, db'. repeat split; auto.
           exact (Hh _ _ eq_refl).
        -- left. destruct sub as [s|].
           ++ exists v, s, db'. repeat split; auto. exact (Hh _ _ eq_refl).
           ++ exfalso. unfold createSubscriber in Hc. revert Hc.
              insert_cases v (store w); discriminate.
  - left. destruct errors as [|first rest].
    + exfalso. exact (parse_never_empty checks req_body Hv).
    + exists first, rest. split; [reflexivity|].
      exact (handler_invalid checks now req_body w first rest Hv).
Qed.

(** A body that passes validation is never answered 400. *)
Lemma handler_valid_not_400 checks now req_body w v b w' :
  Server.validate checks req_body = Success v ->
  handler checks now req_body w <> (inr (mkResponse 400 b), w').
Proof.
  intros Hv H.
  destruct (handler_cases checks now req_body w)
    as [(first & rest & Hf & _) | [(v1 & _ & _ & H1) | [(v1 & _ & _ & _ & H1) |
        [(v1 & s & db' & _ & _ & _ & _ & H1) |
         (v1 & err & db' & _ & _ & _ & _ & H1)]]]];
    [congruence | | | |]; rewrite H1 in H; discriminate.
Qed.
(* ===================================================================== *)
(** ** The claims on single requests *)
(* ===================================================================== *)

(** C2: the rule the schema applies to [email] is no email format: it
    takes every string. The body [{email: "not-an-email"}] is therefore not
    answered 400 with [field = "email"]: the handler looks the text up,
    inserts it and answers 201, and the table holds it afterwards. *)
Theorem malformed_email_is_stored :
  (forall e, email_rule text_column_checks (VString e) = true) /\
  handler text_column_checks 1000 (email_body "not-an-email")
    (mkWorld empty_db [])
    = (inr (mkResponse 201
              (SubscriberJson
                 (Some (mkSubscriber 1 "not-an-email" (Some 1000))))),
       mkWorld (mkDb [mkSubscriber 1 "not-an-email" (Some 1000)] 2)
         [CallGetSubscriberByEmail "not-an-email";
          CallCreateSubscriber (mkInsert "not-an-email")]) /\
  outcome (fst (handler text_column_checks 1000 (email_body "not-an-email")
                  (mkWorld empty_db [])))
    = Created.
Proof. repeat split; reflexivity. Qed.

(** C3: a valid email that is already stored is answered 409 with the
    message "Email already subscribed"; the only storage call is the
    lookup, and the table, sequence included, is left as it was. *)
Theorem duplicate_email_conflicts checks now props e w :
  get props "email" = VString e ->
  valid_email checks e ->
  stored e (store w) ->
  handler checks now (VObject props) w
    = (inr (mkResponse 409 (MessageJson "Email already subscribed" None)),
       mkWorld (store w) (calls w ++ [CallGetSubscriberByEmail e])%list) /\
  outcome (inr (mkResponse 409 (MessageJson "Email already subscribed" None)))
    = ConflictError.
Proof.
  intros Hget Hv Hs. split; [|reflexivity].
  exact (handler_conflict checks now props e w Hget Hv Hs).
Qed.

Lemma one_subscriber_stored : stored "a@example.com" one_subscriber.
Proof. eexists. split; [left; reflexivity | reflexivity]. Qed.

Lemma duplicate_email_conflicts_witness :
  handler text_column_checks 2000 (email_body "a@example.com")
    (mkWorld one_subscriber [])
    = (inr (mkResponse 409 (MessageJson "Email already subscribed" None)),
       mkWorld one_subscriber [CallGetSubscriberByEmail "a@example.com"]) /\
  outcome (inr (mkResponse 409 (MessageJson "Email already subscribed" None)))
    = ConflictError.
Proof.
  exact (duplicate_email_conflicts text_column_checks 2000
           [("email", VString "a@example.com")] "a@example.com"
           (mkWorld one_subscriber []) eq_refl eq_refl one_subscriber_stored).
Defined.




(** C5: in every table that sequences of requests reach from the empty
    one no two rows share an email, and whatever the next request is and
    however it ends (201, 400, 409 or a rethrown error) the table it
    leaves has the same property. *)
Theorem reachable_emails_unique checks db :
  reachable checks db ->
  unique_emails db /\
  forall now req_body,
    unique_emails (snd (subscribe checks now req_body db)).
Proof.
  intros Hr.
  assert (unique_emails db) as Hu.
  { induction Hr; [constructor | apply subscribe_keeps_unique; assumption]. }
  split; [exact Hu|]. intros now req_body.
  apply subscribe_keeps_unique. exact Hu.
Qed.

Lemma reachable_emails_unique_witness :
  unique_emails one_subscriber /\
  forall now req_body,
    unique_emails (snd (subscribe text_column_checks now req_body one_subscriber)).
Proof.
  exact (reachable_emails_unique text_column_checks one_subscriber
           (reach_subscribe text_column_checks 1000
              (email_body "a@example.com") empty_db
              (reach_empty text_column_checks))).
Defined.

(** C7, as the code has it: two different valid emails that the database
    can store, subscribed one after the other on a table that holds
    neither and whose sequence can give two more ids, are both answered
    201, and the two rows carry different ids, neither of which is the id
    of an earlier row. *)
Theorem distinct_emails_distinct_ids checks e1 e2 now1 now2 db :
  valid_email checks e1 ->
  valid_email checks e2 ->
  storable e1 ->
  storable e2 ->
  e1 <> e2 ->
  ids_left 2 db ->
  ids_below_seq db ->
  ~ stored e1 db ->
  ~ stored e2 db ->
  exists s1 s2 db1 db2,
    subscribe checks now1 (email_body e1) db
      = (inr (mkResponse 201 (SubscriberJson (Some s1))), db1) /\
    subscribe checks now2 (email_body e2) db1
      = (inr (mkResponse 201 (SubscriberJson (Some s2))), db2) /\
    email s1 = e1 /\ email s2 = e2 /\
    id s1 <> id s2 /\
    Forall (fun r => id r <> id s1 /\ id r <> id s2) (rows db).
Proof.
  intros Hv1 Hv2 Hst1 Hst2 Hne Hleft Hids Hn1 Hn2.
  set (s1 := mkSubscriber (id_seq db) e1 (Some now1)).
  set (db1 := mkDb (rows db ++ [s1]) (id_seq db + 1)).
  set (s2 := mkSubscriber (id_seq db1) e2 (Some now2)).
  set (db2 := mkDb (rows db1 ++ [s2]) (id_seq db1 + 1)).
  assert (ids_below_seq db1) as Hids1.
  { unfold ids_below_seq, db1. cbn. apply Forall_app. split.
    - eapply Forall_impl; [exact Hids | cbn; intros; lia].
    - constructor; [cbn; lia | constructor]. }
  assert (~ stored e2 db1) as Hn21.
  { intros (r & Hin & He). cbn in Hin. apply in_app_or in Hin as [Hin | [<- | []]].
    - apply Hn2. exists r. auto.
    - cbn in He. congruence. }
  assert (ids_left 1 db) as Hl0 by (unfold ids_left in *; lia).
  assert (ids_left 1 db1) as Hl1 by (unfold ids_left, db1 in *; cbn; lia).
  exists s1, s2, db1, db2. repeat split.
  - unfold subscribe, email_body.
    rewrite (handler_creates checks now1 _ e1 (mkWorld db [])
               (email_body_get e1) Hv1 Hst1 Hl0 Hids Hn1).
    reflexivity.
  - unfold subscribe, email_body.
    rewrite (handler_creates checks now2 _ e2 (mkWorld db1 [])
               (email_body_get e2) Hv2 Hst2 Hl1 Hids1 Hn21).
    reflexivity.
  - cbn. lia.
  - eapply Forall_impl; [exact Hids | cbn; intros; lia].
Qed.

Lemma distinct_emails_distinct_ids_witness :
  exists s1 s2 db1 db2,
    subscribe text_column_checks 1000 (email_body "a@example.com") empty_db
      = (inr (mkResponse 201 (SubscriberJson (Some s1))), db1) /\
    subscribe text_column_checks 2000 (email_body "b@example.com") db1
      = (inr (mkResponse 201 (SubscriberJson (Some s2))), db2) /\
    id s1 <> id s2.
Proof.
  destruct (distinct_emails_distinct_ids text_column_checks
              "a@example.com" "b@example.com" 1000 2000 empty_db
              eq_refl eq_refl (conj eq_refl eq_refl) (conj eq_refl eq_refl))
    as (s1 & s2 & db1 & db2 & H1 & H2 & _ & _ & Hne & _).
  - discriminate.
  - unfold ids_left, max_serial. cbn. lia.
  - apply List.Forall_nil.
  - intros (r & [] & _).
  - intros (r & [] & _).
  - exists s1, s2, db1, db2. auto.
Defined.

(** C7, as stated, fails: on the empty table whose sequence is at its last
    value the first of two different valid emails is answered 201 with the
    id 2147483647; for the second the sequence has no value left, the
    insert is refused and the handler rethrows. And on the empty table
    with a fresh sequence, the text [a] followed by U+0000 passes the
    schema and differs from the first email, yet its request is not
    answered 201: the database refuses the text. *)
Lemma distinct_emails_counterexample :
  valid_email text_column_checks nul_email /\
  nul_email <> "a@example.com" /\
  ~ stored nul_email one_subscriber /\
  subscribe text_column_checks 1000 (email_body "a@example.com") empty_db
    = (inr (created_response
              (mkSubscriber 1 "a@example.com" (Some 1000))),
       one_subscriber) /\
  subscribe text_column_checks 2000 (email_body nul_email) one_subscriber
    = (inl (DatabaseError InvalidByteSequence), one_subscriber) /\
  valid_email text_column_checks "a@example.com" /\
  valid_email text_column_checks "b@example.com" /\
  ~ stored "a@example.com" last_id_db /\
  ~ stored "b@example.com" last_id_db /\
  subscribe text_column_checks 1000 (email_body "a@example.com") last_id_db
    = (inr (created_response
              (mkSubscriber 2147483647 "a@example.com" (Some 1000))),
       mkDb [mkSubscriber 2147483647 "a@example.com" (Some 1000)]
            2147483648) /\
  fst (subscribe text_column_checks 2000 (email_body "b@example.com")
         (mkDb [mkSubscriber 2147483647 "a@example.com" (Some 1000)]
               2147483648))
    = inl (DatabaseError (SequenceExhausted "subscribers_id_seq")).
Proof.
  split; [reflexivity|]. split; [discriminate|].
  split; [intros (r & [<- | []] & He); discriminate He|].
  split; [reflexivity|]. split; [reflexivity|].
  split; [reflexivity|]. split; [reflexivity|].
  split; [intros (r & [] & _)|]. split; [intros (r & [] & _)|].
  split; reflexivity.
Qed.

(** C8: the validation the hook runs before sending and the validation the
    handler runs on [req.body] are the same schema of the contract: they
    give the same result on every value, the hook refuses to send exactly
    the values the handler would answer 400 to, and what the hook does
    send the handler parses back to the same input. *)
Theorem client_and_server_validate_alike checks (v : value) :
  Client.validate checks v = Server.validate checks v /\
  (client_rejects checks v <-> server_rejects checks v) /\
  (forall validated,
     Client.validate checks v = Success validated ->
     Server.validate checks (wire validated) = Success validated).
Proof.
  split; [reflexivity|]. split; [split|].
  - intros (errors & Hc) now w.
    destruct (Server.validate checks v) as [input|errs] eqn:Hs.
    + specialize (Hc (fun _ w => (mkResponse 201 (SubscriberJson None), w)) w).
      unfold mutationFn, Client.validate in Hc.
      unfold Server.validate in Hs. rewrite Hs in Hc. discriminate.
    + destruct errs as [|first rest].
      * exfalso. exact (parse_never_empty checks v Hs).
      * eexists. exact (handler_invalid checks now v w first rest Hs).
  - intros Hsrv.
    destruct (Server.validate checks v) as [input|errs] eqn:Hs.
    + destruct (Hsrv 0 (mkWorld empty_db [])) as (b & Hb).
      exfalso. exact (handler_valid_not_400 checks 0 v _ input b _ Hs Hb).
    + exists errs. intros fetch w.
      unfold mutationFn, Client.validate.
      unfold Server.validate in Hs. rewrite Hs. reflexivity.
  - intros validated. unfold Client.validate, Server.validate, wire.
    cbn [input api_subscribers_create]. unfold insertSubscriberSchema.
    destruct v; try discriminate.
    destruct (ZodString_parse checks ["email"] (get props "email")) as [s|]
      eqn:Hp; [|discriminate].
    intros [= <-].
    assert (email_rule checks (get props "email") = true) as Hr
      by (unfold email_rule; rewrite Hp; reflexivity).
    apply email_rule_success in Hr as (e & He & Hp').
    rewrite Hp' in Hp. injection Hp as ->. rewrite He in Hp'.
    apply parse_picks_email; [reflexivity|].
    unfold valid_email, email_rule. cbn [insert_email]. rewrite Hp'.
    reflexivity.
Qed.

(** C9: a body that carries a valid [email] among other fields parses to
    the input that holds the email alone, so the handler makes the same
    storage calls, writes the same row and answers the same as for the
    body reduced to its [email] field. *)
Theorem extra_fields_are_stripped checks props e :
  get props "email" = VString e ->
  valid_email checks e ->
  Server.validate checks (VObject props) = Success (mkInsert e) /\
  Server.validate checks (VObject props)
    = Server.validate checks (email_body e) /\
  forall now w,
    handler checks now (VObject props) w
      = handler checks now (email_body e) w.
Proof.
  intros Hget Hv.
  pose proof (parse_picks_email checks props e Hget Hv) as Hp.
  pose proof (parse_picks_email checks _ e (email_body_get e) Hv) as Hp'.
  unfold Server.validate. cbn [input api_subscribers_create].
  split; [exact Hp|]. split; [rewrite Hp; symmetry; exact Hp'|].
  intros now w. unfold email_body. unfold_handler. rewrite Hp, Hp'.
  reflexivity.
Qed.

Lemma extra_fields_are_stripped_witness :
  Server.validate text_column_checks
    (VObject [("id", VNumber 7); ("email", VString "a@example.com");
              ("admin", VBool true)])
    = Success (mkInsert "a@example.com") /\
  forall now w,
    handler text_column_checks now
      (VObject [("id", VNumber 7); ("email", VString "a@example.com");
                ("admin", VBool true)]) w
    = handler text_column_checks now (email_body "a@example.com") w.
Proof.
  destruct (extra_fields_are_stripped text_column_checks
              [("id", VNumber 7); ("email", VString "a@example.com");
               ("admin", VBool true)] "a@example.com" eq_refl eq_refl)
    as (H1 & _ & H2).
  split; [exact H1 | exact H2].
Defined.

(* ===================================================================== *)
(** ** Requests in flight together *)
(* ===================================================================== *)

Lemma copies_stored e db : stored e db <-> (1 <= copies e db)%nat.
Proof.
  unfold copies, stored, select_where_email. split.
  - intros (r & Hin & He).
    assert (In r (List.filter (fun r => (email r =? e)%string) (rows db))) as Hr
      by (apply filter_In; split; [exact Hin | apply String.eqb_eq; exact He]).
    destruct (List.filter _ (rows db)); [destruct Hr | cbn; lia].
  - destruct (List.filter _ (rows db)) as [|r l] eqn:Hf; cbn; [lia|].
    intros _. exists r.
    assert (In r (r :: l)) as Hr by (left; reflexivity).
    rewrite <- Hf in Hr. apply filter_In in Hr as [Hin He].
    split; [exact Hin | apply String.eqb_eq; exact He].
Qed.

Lemma copies_not_stored e db : ~ stored e db -> copies e db = 0%nat.
Proof.
  intros Hn. destruct (copies e db) eqn:Hc; [reflexivity|].
  exfalso. apply Hn, copies_stored. lia.
Qed.

Lemma count_outcome_insert o (p : pool) i t t' :
  p !! i = Some t ->
  (count_outcome o (<[i := t']> p) + (if has_outcome o t then 1 else 0)
   = count_outcome o p + (if has_outcome o t' then 1 else 0))%nat.
Proof.
  unfold count_outcome. revert i.
  induction p as [|a p IH]; intros [|i] Hl; try discriminate.
  - injection Hl as ->. cbn.
    destruct (has_outcome o t), (has_outcome o t'); cbn; lia.
  - cbn in Hl. specialize (IH i Hl). simpl.
    destruct (has_outcome o a); simpl; [f_equal|]; exact IH.
Qed.

(** Three turns of a request served alone are the handler. *)
Lemma steps_are_handler checks now req_body w :
  run checks [(0%nat, now); (0%nat, now); (0%nat, now)]
      ([Received req_body], w)
  = ([Finished (fst (handler checks now req_body w))],
     snd (handler checks now req_body w)).
Proof.
  unfold run. cbn [fold_left pool_step lookup list_lookup step].
  unfold handler, try_catch, bind, parse.
  destruct (Server.validate checks req_body) as [v|errors]; cbn.
  - unfold storage_getSubscriberByEmail.
    destruct (getSubscriberByEmail (insert_email v) (store w)) as [err|[r|]];
      cbn; [reflexivity | reflexivity |].
    unfold storage_createSubscriber. cbn.
    destruct (createSubscriber v now (store w)) as [[err|sub] db'];
      reflexivity.
  - destruct errors; reflexivity.
Qed.

Lemma step_remaining checks now t w :
  (remaining (fst (step checks now t w)) <= pred (remaining t))%nat.
Proof.
  destruct t as [b|v|v|r]; cbn [step].
  - destruct (Server.validate checks b); cbn; lia.
  - unfold storage_getSubscriberByEmail.
    destruct (getSubscriberByEmail _ _) as [err|[r|]]; cbn; lia.
  - unfold storage_createSubscriber.
    destruct (createSubscriber _ _ _) as [[err|sub] db']; cbn; lia.
  - cbn. lia.
Qed.

Lemma pool_step_length checks ev (p : pool) w :
  length (fst (pool_step checks ev (p, w))) = length p.
Proof.
  destruct ev as [i now]. cbn.
  destruct (p !! i) as [t|]; [|reflexivity].
  destruct (step checks now t w). cbn. apply length_insert.
Qed.

Lemma run_cons checks ev schedule st :
  run checks (ev :: schedule) st = run checks schedule (pool_step checks ev st).
Proof. reflexivity. Qed.

Lemma run_length checks schedule :
  forall (p : pool) w, length (fst (run checks schedule (p, w))) = length p.
Proof.
  induction schedule as [|ev schedule IH]; intros p w; [reflexivity|].
  rewrite run_cons.
  pose proof (pool_step_length checks ev p w) as Hlen.
  destruct (pool_step checks ev (p, w)) as [p' w']. rewrite IH. exact Hlen.
Qed.

(** Every turn a request gets takes it a step further. *)
Lemma run_progress checks schedule :
  forall (p : pool) w i t,
    p !! i = Some t ->
    exists t',
      fst (run checks schedule (p, w)) !! i = Some t' /\
      (remaining t' <= remaining t - turns i schedule)%nat.
Proof.
  induction schedule as [|[j now] schedule IH]; intros p w i t Hl.
  - exists t. split; [exact Hl | cbn; lia].
  - rewrite run_cons. cbn [pool_step]. unfold turns. cbn [List.filter fst].
    fold (turns i schedule).
    destruct (p !! j) as [tj|] eqn:Hj.
    + pose proof (step_remaining checks now tj w) as Hrem.
      destruct (step checks now tj w) as [tj' w']. cbn [fst] in Hrem.
      destruct (Nat.eqb_spec j i) as [-> | Hne].
      * rewrite Hl in Hj. injection Hj as <-.
        destruct (IH (<[i := tj']> p) w' i tj') as (t' & Ht' & Hle).
        { apply list_lookup_insert_eq. eapply lookup_lt_Some. exact Hl. }
        exists t'. split; [exact Ht' | unfold turns in *; cbn [length]; lia].
      * destruct (IH (<[j := tj']> p) w' i t) as (t' & Ht' & Hle).
        { rewrite list_lookup_insert_ne by exact Hne. exact Hl. }
        exists t'. split; [exact Ht' | exact Hle].
    + destruct (Nat.eqb_spec j i) as [-> | Hne]; [congruence|].
      apply IH. exact Hl.
Qed.

Lemma same_requests_lookup e n i t :
  same_requests e n !! i = Some t -> t = Received (email_body e).
Proof.
  intros Hl. apply list_elem_of_lookup_2, list_elem_of_In in Hl.
  exact (repeat_spec _ _ _ Hl).
Qed.


Lemma turns_cons j i now schedule :
  turns j ((i, now) :: schedule)
  = if Nat.eqb i j then S (turns j schedule) else turns j schedule.
Proof. unfold turns. cbn. destruct (Nat.eqb i j); reflexivity. Qed.

Lemma turns_app j a b : turns j (a ++ b) = (turns j a + turns j b)%nat.
Proof. unfold turns. rewrite List.filter_app, length_app. reflexivity. Qed.

Lemma run_app checks a b st :
  run checks (a ++ b) st = run checks b (run checks a st).
Proof. unfold run. apply fold_left_app. Qed.

Lemma count_insert (f : task -> bool) (p : pool) i t t' :
  p !! i = Some t ->
  (length (List.filter f (<[i := t']> p)) + (if f t then 1 else 0)
   = length (List.filter f p) + (if f t' then 1 else 0))%nat.
Proof.
  revert i. induction p as [|a p IH]; intros [|i] Hl; try discriminate.
  - injection Hl as ->. cbn. destruct (f t), (f t'); cbn; lia.
  - cbn in Hl. specialize (IH i Hl). simpl.
    destruct (f a); simpl; [f_equal|]; exact IH.
Qed.

Lemma count_pos (f : task -> bool) (p : pool) i t :
  p !! i = Some t -> f t = true -> (1 <= length (List.filter f p))%nat.
Proof.
  revert i. induction p as [|a p IH]; intros [|i] Hl Ht; try discriminate.
  - injection Hl as ->. cbn. rewrite Ht. cbn. lia.
  - cbn in Hl. cbn. specialize (IH i Hl Ht).
    destruct (f a); cbn; lia.
Qed.

Lemma count_single (f : task -> bool) (p : pool) i t :
  p !! i = Some t -> f t = true ->
  (forall j t', j <> i -> p !! j = Some t' -> f t' = false) ->
  length (List.filter f p) = 1%nat.
Proof.
  revert i. induction p as [|a p IH]; intros [|i] Hl Ht Hothers;
    try discriminate.
  - injection Hl as ->. cbn. rewrite Ht. cbn. f_equal.
    apply List.length_zero_iff_nil.
    clear -Hothers. induction p as [|b p IH]; [reflexivity|]. cbn.
    rewrite (Hothers 1%nat b) by (auto; reflexivity).
    apply IH. intros j t' Hj Hl. destruct j as [|j]; [congruence|].
    apply (Hothers (S (S j)) t'); [lia | exact Hl].
  - cbn in Hl. cbn.
    rewrite (Hothers 0%nat a) by (auto; reflexivity).
    apply (IH i Hl Ht). intros j t' Hj Hl'.
    apply (Hothers (S j) t'); [lia | exact Hl'].
Qed.

Lemma stage_ok e k : task_ok e (stage e k).
Proof. destruct k as [|[|k]]; reflexivity. Qed.

Lemma stage_inj e k k' :
  (k <= 2)%nat -> (k' <= 2)%nat -> stage e k = stage e k' -> k = k'.
Proof.
  intros Hk Hk'. destruct k as [|[|[|k]]], k' as [|[|[|k']]];
    try lia; try reflexivity; discriminate.
Qed.

(** While no row holds [e], a turn of a request that is not yet past its
    lookup takes it one stage further and leaves the table alone. *)
Lemma step_stage checks now e k w :
  valid_email checks e ->
  has_nul e = false ->
  ~ stored e (store w) ->
  (k <= 1)%nat ->
  fst (step checks now (stage e k) w) = stage e (S k) /\
  store (snd (step checks now (stage e k) w)) = store w.
Proof.
  intros Hv Hz Hn Hk. destruct k as [|[|k]]; [| |lia]; cbn [stage step].
  - unfold Server.validate, email_body. cbn [input api_subscribers_create].
    rewrite (parse_picks_email checks _ e (email_body_get e) Hv).
    split; reflexivity.
  - unfold storage_getSubscriberByEmail. cbn [insert_email].
    rewrite (lookup_miss _ _ Hn Hz). split; reflexivity.
Qed.

(** Before the first insert: every request is at the stage its turns have
    taken it to, and the table is what it was. *)
Lemma run_before_first_insert checks e before :
  valid_email checks e ->
  has_nul e = false ->
  forall (p : pool) w,
    ~ stored e (store w) ->
    (forall j t, p !! j = Some t ->
       exists k, t = stage e k /\ (k + turns j before <= 2)%nat) ->
    store (snd (run checks before (p, w))) = store w /\
    forall j k, p !! j = Some (stage e k) ->
                (k + turns j before <= 2)%nat ->
                fst (run checks before (p, w)) !! j
                = Some (stage e (k + turns j before)).
Proof.
  intros Hv Hz. induction before as [|[i now] before IH]; intros p w Hn Hp.
  - split; [reflexivity|]. intros j k Hl _. cbn.
    rewrite Nat.add_0_r. exact Hl.
  - rewrite run_cons. cbn [pool_step].
    destruct (p !! i) as [t|] eqn:Hi.
    + destruct (Hp i t Hi) as (k0 & -> & Hk0).
      rewrite turns_cons, Nat.eqb_refl in Hk0.
      destruct (step_stage checks now e k0 w Hv Hz Hn) as [Ht' Hw']; [lia|].
      destruct (step checks now (stage e k0) w) as [t' w'].
      cbn [fst snd] in Ht', Hw'. subst t'.
      assert (~ stored e (store w')) as Hn' by (rewrite Hw'; exact Hn).
      destruct (IH (<[i := stage e (S k0)]> p) w' Hn') as [Hst Hfin].
      { intros j t Hl. destruct (Nat.eq_dec i j) as [<- | Hne].
        - rewrite list_lookup_insert_eq in Hl
            by (eapply lookup_lt_Some; exact Hi).
          injection Hl as <-. exists (S k0). split; [reflexivity | lia].
        - rewrite list_lookup_insert_ne in Hl by exact Hne.
          destruct (Hp j t Hl) as (k & -> & Hk).
          rewrite turns_cons in Hk.
          destruct (Nat.eqb_spec i j) as [Heq|_]; [contradiction|].
          exists k. auto. }
      split; [rewrite Hst; exact Hw'|].
      intros j k Hl Hk. rewrite turns_cons in Hk |- *.
      destruct (Nat.eqb_spec i j) as [<- | Hne].
      * rewrite Hi in Hl. injection Hl as Heq.
        apply stage_inj in Heq; [|lia|lia]. subst k0.
        replace (k + S (turns i before))%nat
          with (S k + turns i before)%nat by lia.
        apply Hfin; [|lia].
        apply list_lookup_insert_eq. eapply lookup_lt_Some. exact Hi.
      * apply Hfin; [|exact Hk].
        rewrite list_lookup_insert_ne by exact Hne. exact Hl.
    + destruct (IH p w Hn) as [Hst Hfin].
      { intros j t Hl. destruct (Hp j t Hl) as (k & -> & Hk).
        rewrite turns_cons in Hk.
        destruct (Nat.eqb_spec i j) as [<- | _]; [congruence|].
        exists k. auto. }
      split; [exact Hst|].
      intros j k Hl Hk. rewrite turns_cons in Hk |- *.
      destruct (Nat.eqb_spec i j) as [<- | _]; [congruence|].
      apply Hfin; assumption.
Qed.

(** Once a row holds [e], a turn never changes how a request will end,
    nor the rows; only a refused insert takes a value of the sequence. *)
Lemma step_settled checks now e t w :
  valid_email checks e ->
  has_nul e = false ->
  task_ok e t ->
  stored e (store w) ->
  ids_below_seq (store w) ->
  (is_checked t = true -> ids_left 1 (store w)) ->
  settle e (fst (step checks now t w)) = settle e t /\
  task_ok e (fst (step checks now t w)) /\
  is_checked (fst (step checks now t w)) = false /\
  rows (store (snd (step checks now t w))) = rows (store w) /\
  id_seq (store (snd (step checks now t w)))
    = id_seq (store w) + (if is_checked t then 1 else 0).
Proof.
  intros Hv Hz Hok Hs Hids Hleft.
  destruct t as [b|v|v|r]; cbn in Hok; subst; cbn [step is_checked].
  - unfold Server.validate, email_body. cbn [input api_subscribers_create].
    rewrite (parse_picks_email checks _ e (email_body_get e) Hv). cbn.
    repeat split; lia.
  - unfold storage_getSubscriberByEmail. cbn [insert_email].
    destruct (lookup_hit _ _ Hs) as (r & ->). cbn.
    repeat split; auto; lia.
  - unfold storage_createSubscriber, createSubscriber, insert_returning.
    cbn [id email insert_email].
    rewrite Hz, (sequence_gives _ (Hleft eq_refl)), (fresh_id _ Hids).
    apply has_email_stored in Hs as ->. cbn.
    repeat split; auto.
  - cbn. repeat split; auto; lia.
Qed.

Lemma pool_step_settled checks e ev (p : pool) w :
  valid_email checks e ->
  has_nul e = false ->
  settled_inv e p w ->
  settled_inv e (fst (pool_step checks ev (p, w)))
                (snd (pool_step checks ev (p, w))) /\
  rows (store (snd (pool_step checks ev (p, w)))) = rows (store w) /\
  forall j t, p !! j = Some t ->
    exists t', fst (pool_step checks ev (p, w)) !! j = Some t' /\
               settle e t' = settle e t.
Proof.
  intros Hv Hz [Htasks Hs Hids Hleft]. destruct ev as [i now].
  cbn [pool_step].
  destruct (p !! i) as [t|] eqn:Hi;
    [|split; [constructor; assumption | split; [reflexivity | eauto]]].
  assert (task_ok e t) as Hok
    by (rewrite List.Forall_forall in Htasks; apply Htasks;
        apply list_elem_of_In; eapply list_elem_of_lookup_2; exact Hi).
  pose proof (count_insert is_checked p i t (fst (step checks now t w)) Hi)
    as Hcount.
  destruct (step_settled checks now e t w Hv Hz Hok Hs Hids)
    as (Hset & Hok' & Hnc & Hrows & Hseq).
  { intros Hc. pose proof (count_pos is_checked p i t Hi Hc).
    unfold ids_left, count_checked in *. lia. }
  destruct (step checks now t w) as [t' w']. cbn [fst snd] in *.
  rewrite Hnc in Hcount.
  split; [|split; [exact Hrows|]].
  - constructor; cbn [fst snd].
    + apply Forall_insert; assumption.
    + destruct Hs as (r & Hin & He). exists r. rewrite Hrows. auto.
    + unfold ids_below_seq in *. rewrite Hrows, Hseq.
      eapply Forall_impl; [exact Hids|]. cbn. intros r Hr.
      destruct (is_checked t); lia.
    + unfold ids_left, count_checked in *. rewrite Hseq.
      destruct (is_checked t); lia.
  - intros j t0 Hl. destruct (Nat.eq_dec i j) as [<- | Hne].
    + rewrite Hi in Hl. injection Hl as <-. exists t'.
      split; [|exact Hset].
      apply list_lookup_insert_eq. eapply lookup_lt_Some. exact Hi.
    + exists t0. split; [|reflexivity].
      rewrite list_lookup_insert_ne by exact Hne. exact Hl.
Qed.

Lemma run_settled checks e after :
  valid_email checks e ->
  has_nul e = false ->
  forall (p : pool) w,
    settled_inv e p w ->
    rows (store (snd (run checks after (p, w)))) = rows (store w) /\
    forall j t, p !! j = Some t ->
      exists t', fst (run checks after (p, w)) !! j = Some t' /\
                 settle e t' = settle e t.
Proof.
  intros Hv Hz. induction after as [|ev after IH]; intros p w Hinv.
  - split; [reflexivity | eauto].
  - rewrite run_cons.
    destruct (pool_step_settled checks e ev p w Hv Hz Hinv)
      as (Hinv' & Hrows & Hset).
    destruct (pool_step checks ev (p, w)) as [p' w']. cbn [fst snd] in *.
    destruct (IH p' w' Hinv') as [Hrows' Hset'].
    split; [rewrite Hrows'; exact Hrows|].
    intros j t Hl. destruct (Hset j t Hl) as (t1 & Hl1 & H1).
    destruct (Hset' j t1 Hl1) as (t2 & Hl2 & H2).
    exists t2. split; [exact Hl2 | congruence].
Qed.

(** Whether some request has had its third turn is decidable. *)
Lemma third_turn_dec n schedule :
  (exists i, (i < n)%nat /\ (3 <= turns i schedule)%nat) \/
  (forall j, (j < n)%nat -> (turns j schedule <= 2)%nat).
Proof.
  induction n as [|n [(i & Hi & Ht) | Hall]].
  - right. intros j Hj. lia.
  - left. exists i. split; [lia | exact Ht].
  - destruct (le_lt_dec 3 (turns n schedule)) as [H3 | H3].
    + left. exists n. split; [lia | exact H3].
    + right. intros j Hj. destruct (Nat.eq_dec j n) as [-> | Hne]; [lia|].
      apply Hall. lia.
Qed.

(** A schedule in which some request gets a third turn splits at the
    first third turn. *)
Lemma first_third_turn n schedule :
  (exists i, (i < n)%nat /\ (3 <= turns i schedule)%nat) ->
  exists before winner now after,
    schedule = (before ++ (winner, now) :: after)%list /\
    (winner < n)%nat /\
    turns winner before = 2%nat /\
    forall j, (j < n)%nat -> (turns j before <= 2)%nat.
Proof.
  induction schedule as [|[i now] schedule IH] using rev_ind.
  - intros (i & _ & H). cbn in H. lia.
  - intros (j & Hj & Ht).
    destruct (third_turn_dec n schedule) as [Hex | Hall].
    + destruct (IH Hex) as (before & winner & now' & after & -> & H1 & H2 & H3).
      exists before, winner, now', (after ++ [(i, now)])%list.
      rewrite <- app_assoc. cbn. auto.
    + rewrite turns_app, turns_cons in Ht. cbn in Ht.
      pose proof (Hall j Hj) as Hle.
      destruct (Nat.eqb_spec i j) as [-> | _]; [|lia].
      exists schedule, j, now, []. repeat split; auto. lia.
Qed.
(* ===================================================================== *)
(** ** The claims on the race between lookup and insert *)
(* ===================================================================== *)

(** C1, as the code has it: when the lookup of a request missed and its
    insert is then rejected by a unique index, the handler rethrows the
    database error; the promise is rejected, which the error middleware
    answers 500, not 409; no row is written. *)
Theorem write_time_violation_is_rethrown checks now input w err db' :
  createSubscriber input now (store w) = (inl err, db') ->
  step checks now (Checked input) w
    = (Finished (inl (DatabaseError err)),
       mkWorld db' (calls w ++ [CallCreateSubscriber input])%list) /\
  outcome (inl (DatabaseError err)) = InternalError /\
  status (error_middleware (inl (DatabaseError err))) = 500 /\
  rows db' = rows (store w).
Proof.
  intros Hc. split; [|split; [reflexivity | split; [reflexivity|]]].
  - cbn [step]. unfold storage_createSubscriber. rewrite Hc. reflexivity.
  - unfold createSubscriber in Hc.
    destruct (insert_returning input now (store w)) as [[e|rs] d] eqn:Hi;
      [|discriminate].
    injection Hc as <- <-.
    exact (insert_rejected_keeps_rows _ _ _ _ _ Hi).
Qed.

Lemma write_time_violation_is_rethrown_witness :
  step text_column_checks 6 (Checked (mkInsert "a@example.com"))
    (mkWorld one_subscriber [])
    = (Finished (inl email_violation),
       mkWorld (mkDb (rows one_subscriber) 3)
               [CallCreateSubscriber (mkInsert "a@example.com")]) /\
  outcome (inl email_violation) = InternalError.
Proof.
  destruct (write_time_violation_is_rethrown text_column_checks 6
              (mkInsert "a@example.com") (mkWorld one_subscriber [])
              (UniqueViolation "subscribers_email_unique")
              (mkDb (rows one_subscriber) 3) eq_refl)
    as (H1 & H2 & _).
  split; [exact H1 | exact H2].
Defined.

(** C1, as stated, fails: of two requests for the same new email resumed
    in turn, the second is past its lookup (which missed) when the first
    inserts; its own insert is rejected by the unique index on [email] and
    the request ends rethrowing, an internal error and not a conflict. *)
Lemma write_time_violation_counterexample :
  let st := run text_column_checks (firstn 5 alternating) two_requests in
  fst st !! 1%nat = Some (Checked (mkInsert "a@example.com")) /\
  fst (createSubscriber (mkInsert "a@example.com") 6 (store (snd st)))
    = inl (UniqueViolation "subscribers_email_unique") /\
  fst (step text_column_checks 6 (Checked (mkInsert "a@example.com")) (snd st))
    = Finished (inl email_violation) /\
  outcome (inl email_violation) = InternalError /\
  outcome (inl email_violation) <> ConflictError.
Proof.
  cbv zeta. repeat split; try reflexivity. discriminate.
Qed.

Lemma same_requests_at e n j :
  (j < n)%nat -> same_requests e n !! j = Some (Received (email_body e)).
Proof.
  intros Hj. destruct (same_requests e n !! j) as [t|] eqn:Ht.
  - f_equal. eapply same_requests_lookup. exact Ht.
  - apply lookup_ge_None in Ht. unfold same_requests in Ht.
    rewrite repeat_length in Ht. lia.
Qed.

Lemma settle_stage e k :
  (k <= 2)%nat ->
  settle e (stage e k)
  = Finished (if (2 <=? k)%nat then inl email_violation
              else inr conflict_response).
Proof. intros Hk. destruct k as [|[|[|k]]]; reflexivity. Qed.

(** Finished requests that were answered 201, 409 or rethrew. *)
Lemma three_outcomes (p : pool) :
  Forall (fun t => has_outcome Created t = true \/
                   has_outcome ConflictError t = true \/
                   has_outcome InternalError t = true) p ->
  (count_outcome Created p + count_outcome ConflictError p
   + count_outcome InternalError p = length p)%nat.
Proof.
  unfold count_outcome. induction 1 as [|t p Ht _ IH]; [reflexivity|].
  destruct t as [| | |r]; cbn in Ht; try (destruct Ht as [|[|]]; discriminate).
  cbn. destruct (outcome r); cbn in *;
    try (destruct Ht as [|[|]]; discriminate); lia.
Qed.

(** C6, as the code has it: [n >= 1] requests for the same valid email
    that the database can store, not stored yet, with [n] values left in
    the sequence, served under any schedule that lets each of them finish.
    The schedule splits at the first insert: the request that makes it,
    the winner, is answered 201 with the new row. Every other request is
    decided by where its lookup falls: if it ran after the winner's insert
    (fewer than two turns before it) the request is answered 409; if it
    ran before (two turns before it) the request ends rethrowing the
    violation of the unique index on [email], an internal error. So one
    request is answered 201, [n - 1] are answered 409 or rethrow, and
    exactly one row holds the email afterwards. *)
Theorem concurrent_duplicates_one_row checks e n schedule db :
  valid_email checks e ->
  storable e ->
  ids_below_seq db ->
  ids_left (Z.of_nat n) db ->
  ~ stored e db ->
  (1 <= n)%nat ->
  complete n schedule ->
  exists before winner now after,
    schedule = (before ++ (winner, now) :: after)%list /\
    (winner < n)%nat /\
    turns winner before = 2%nat /\
    (forall j, (j < n)%nat -> (turns j before <= 2)%nat) /\
    let final := run checks schedule (same_requests e n, mkWorld db []) in
    let row := mkSubscriber (id_seq db) e (Some now) in
    fst final !! winner = Some (Finished (inr (created_response row))) /\
    (forall j, (j < n)%nat -> j <> winner ->
       fst final !! j
       = Some (Finished (if (2 <=? turns j before)%nat
                         then inl email_violation
                         else inr conflict_response))) /\
    count_outcome Created (fst final) = 1%nat /\
    (count_outcome ConflictError (fst final)
     + count_outcome InternalError (fst final) = n - 1)%nat /\
    rows (store (snd final)) = (rows db ++ [row])%list /\
    copies e (store (snd final)) = 1%nat.
Proof.
  intros Hv [Hz Hfit] Hids Hleft Hn Hn1 Hc.
  destruct (first_third_turn n schedule)
    as (before & winner & now & after & Hsplit & Hw & Hw2 & Hbefore).
  { exists 0%nat. split; [lia | apply Hc; lia]. }
  exists before, winner, now, after.
  split; [exact Hsplit|]. split; [exact Hw|]. split; [exact Hw2|].
  split; [exact Hbefore|]. cbv zeta.
  set (row := mkSubscriber (id_seq db) e (Some now)).
  (* the requests when every one of them is finished *)
  assert (forall j, (j < n)%nat ->
            exists r, fst (run checks schedule
                             (same_requests e n, mkWorld db [])) !! j
                      = Some (Finished r)) as Hdone.
  { intros j Hj.
    destruct (run_progress checks schedule (same_requests e n)
                (mkWorld db []) j _ (same_requests_at e n j Hj))
      as (t & Ht & Hle).
    specialize (Hc j Hj). cbn [remaining] in Hle.
    destruct t as [| | |r]; cbn in Hle; try lia. eauto. }
  pose proof (run_length checks schedule (same_requests e n) (mkWorld db []))
    as Hlen.
  unfold same_requests in Hlen at 2. rewrite repeat_length in Hlen.
  revert Hdone Hlen. rewrite Hsplit, run_app, run_cons. intros Hdone Hlen.
  (* up to the first insert *)
  destruct (run_before_first_insert checks e before Hv Hz
              (same_requests e n) (mkWorld db []) Hn) as [Hst1 Hfin1].
  { intros j t Hl. exists 0%nat.
    split; [exact (same_requests_lookup e n j t Hl)|].
    apply lookup_lt_Some in Hl. unfold same_requests in Hl.
    rewrite repeat_length in Hl. specialize (Hbefore j Hl). lia. }
  assert (forall j, (j < n)%nat ->
            fst (run checks before (same_requests e n, mkWorld db [])) !! j
            = Some (stage e (turns j before))) as Hp1.
  { intros j Hj. apply (Hfin1 j 0%nat (same_requests_at e n j Hj)).
    specialize (Hbefore j Hj). lia. }
  pose proof (run_length checks before (same_requests e n) (mkWorld db []))
    as Hlen1.
  unfold same_requests in Hlen1 at 2. rewrite repeat_length in Hlen1.
  destruct (run checks before (same_requests e n, mkWorld db []))
    as [p1 w1]. cbn [fst snd store] in Hst1, Hp1, Hlen1.
  (* the first insert *)
  pose proof (Hp1 winner Hw) as Hwin. rewrite Hw2 in Hwin. cbn [stage] in Hwin.
  pose proof (count_insert is_checked p1 winner _
                (Finished (inr (created_response row))) Hwin) as Hcount.
  cbn [is_checked] in Hcount.
  assert (ids_left 1 db) as Hleft1
    by (apply (ids_left_le (Z.of_nat n)); [lia | exact Hleft]).
  assert (pool_step checks (winner, now) (p1, w1)
          = (<[winner := Finished (inr (created_response row))]> p1,
             mkWorld (mkDb (rows db ++ [row]) (id_seq db + 1))
                     (calls w1 ++ [CallCreateSubscriber (mkInsert e)])%list))
    as Hstep.
  { cbn [pool_step]. rewrite Hwin. cbn [step].
    unfold storage_createSubscriber, createSubscriber. rewrite Hst1.
    rewrite (insert_fresh e now db (conj Hz Hfit) Hleft1 Hids Hn).
    reflexivity. }
  rewrite Hstep in Hdone, Hlen |- *.
  set (p2 := <[winner := Finished (inr (created_response row))]> p1) in *.
  set (w2 := mkWorld (mkDb (rows db ++ [row]) (id_seq db + 1))
                     (calls w1 ++ [CallCreateSubscriber (mkInsert e)])%list)
    in *.
  assert (p2 !! winner = Some (Finished (inr (created_response row)))) as Hp2w.
  { apply list_lookup_insert_eq. rewrite Hlen1. exact Hw. }
  assert (forall j, (j < n)%nat -> j <> winner ->
            p2 !! j = Some (stage e (turns j before))) as Hp2.
  { intros j Hj Hne. unfold p2. rewrite list_lookup_insert_ne by auto.
    apply Hp1. exact Hj. }
  (* after the first insert *)
  assert (settled_inv e p2 w2) as Hinv.
  { constructor.
    - apply Forall_lookup. intros j t Hl.
      assert (j < n)%nat as Hj
        by (apply lookup_lt_Some in Hl; unfold p2 in Hl;
            rewrite length_insert in Hl; lia).
      destruct (Nat.eq_dec j winner) as [-> | Hne].
      + rewrite Hp2w in Hl. injection Hl as <-.
        right. left. exists row. split; reflexivity.
      + rewrite (Hp2 j Hj Hne) in Hl. injection Hl as <-. apply stage_ok.
    - exists row. split; [|reflexivity].
      apply in_or_app. right. left. reflexivity.
    - unfold ids_below_seq in *. cbn. apply Forall_app. split.
      + eapply Forall_impl; [exact Hids | cbn; intros; lia].
      + constructor; [cbn; lia | constructor].
    - pose proof (List.filter_length_le is_checked p1) as Hle.
      subst p2 w2. unfold ids_left, count_checked in *.
      cbn [store id_seq]. lia. }
  destruct (run_settled checks e after Hv Hz p2 w2 Hinv) as [Hrows Hset].
  assert (forall j t, (j < n)%nat -> p2 !! j = Some t ->
            fst (run checks after (p2, w2)) !! j = Some (settle e t)) as Hend.
  { intros j t Hj Hl. destruct (Hset j t Hl) as (t' & Hl' & Hs').
    destruct (Hdone j Hj) as (r & Hr). rewrite Hr in Hl'.
    injection Hl' as <-. rewrite Hr, <- Hs'. reflexivity. }
  assert (forall j, (j < n)%nat -> j <> winner ->
            fst (run checks after (p2, w2)) !! j
            = Some (Finished (if (2 <=? turns j before)%nat
                              then inl email_violation
                              else inr conflict_response))) as Hlosers.
  { intros j Hj Hne. rewrite (Hend j _ Hj (Hp2 j Hj Hne)).
    rewrite settle_stage by (apply Hbefore; exact Hj). reflexivity. }
  pose proof (Hend winner _ Hw Hp2w) as Hwinner. cbn [settle] in Hwinner.
  assert (count_outcome Created (fst (run checks after (p2, w2))) = 1%nat)
    as Hone.
  { apply (count_single (has_outcome Created) _ winner _ Hwinner);
      [reflexivity|].
    intros j t Hne Hl.
    assert (j < n)%nat as Hj by (apply lookup_lt_Some in Hl; lia).
    rewrite (Hlosers j Hj Hne) in Hl. injection Hl as <-.
    destruct (turns j before) as [|[|k]]; reflexivity. }
  assert (rows (store (snd (run checks after (p2, w2))))
          = (rows db ++ [row])%list) as Hrows' by (rewrite Hrows; reflexivity).
  split; [exact Hwinner|]. split; [exact Hlosers|]. split; [exact Hone|].
  split; [|split; [exact Hrows'|]].
  - pose proof (three_outcomes (fst (run checks after (p2, w2)))) as Hsum.
    rewrite Hone, Hlen in Hsum.
    assert (1 + count_outcome ConflictError (fst (run checks after (p2, w2)))
            + count_outcome InternalError (fst (run checks after (p2, w2)))
            = n)%nat; [|lia].
    apply Hsum. apply Forall_lookup. intros j t Hl.
    assert (j < n)%nat as Hj by (apply lookup_lt_Some in Hl; lia).
    destruct (Nat.eq_dec j winner) as [-> | Hne].
    + rewrite Hwinner in Hl. injection Hl as <-. left. reflexivity.
    + rewrite (Hlosers j Hj Hne) in Hl. injection Hl as <-.
      destruct (turns j before) as [|[|k]];
        [right; left | right; left | right; right]; reflexivity.
  - unfold copies, select_where_email. rewrite Hrows'.
    rewrite List.filter_app, length_app. cbn. rewrite String.eqb_refl.
    pose proof (copies_not_stored e db Hn) as H0.
    unfold copies, select_where_email in H0. rewrite H0. reflexivity.
Qed.

Lemma alternating_complete : complete 2 alternating.
Proof.
  intros i Hi. destruct i as [|[|i]]; [cbn; lia | cbn; lia | lia].
Qed.

Lemma concurrent_duplicates_one_row_witness :
  run text_column_checks alternating two_requests
  = ([Finished (inr (created_response
                      (mkSubscriber 1 "a@example.com" (Some 5))));
      Finished (inl email_violation)],
     snd (run text_column_checks alternating two_requests)) /\
  copies "a@example.com"
    (store (snd (run text_column_checks alternating two_requests))) = 1%nat.
Proof.
  destruct (concurrent_duplicates_one_row text_column_checks "a@example.com"
              2 alternating empty_db eq_refl (conj eq_refl eq_refl)
              (List.Forall_nil _))
    as (before & winner & now & after & _ & _ & _ & _ & _ & _ & _ & _ & _ & H).
  - unfold ids_left, max_serial. cbn. lia.
  - intros (r & [] & _).
  - lia.
  - exact alternating_complete.
  - split; [reflexivity | exact H].
Defined.

(** C6, as stated, fails: two requests for the same new email resumed in
    turn end with one 201 and one rethrown violation; no request is
    answered 409. *)
Lemma concurrent_duplicates_counterexample :
  valid_email text_column_checks "a@example.com" /\
  ~ stored "a@example.com" empty_db /\
  complete 2 alternating /\
  map (has_outcome InternalError)
      (fst (run text_column_checks alternating two_requests))
    = [false; true] /\
  ~ one_created_rest_conflict text_column_checks "a@example.com" 2
      alternating empty_db.
Proof.
  split; [reflexivity|]. split; [intros (r & [] & _)|].
  split; [exact alternating_complete|]. split; [reflexivity|].
  intros (_ & H & _). cbv in H. discriminate.
Qed.

(* ===================================================================== *)
(** ** [buildUrl] *)
(* ===================================================================== *)

Lemma GetSubstitution_plain matched before after template :
  has_dollar template = false ->
  GetSubstitution matched before after template = template.
Proof.
  induction template as [|c rest IH]; [reflexivity|].
  cbn [has_dollar]. intros H. apply orb_false_elim in H as [Hc Hrest].
  specialize (IH Hrest).
  destruct c as [[] [] [] [] [] [] [] []]; try discriminate Hc;
    cbn [GetSubstitution]; rewrite IH; reflexivity.
Qed.

Lemma append_cons x a b : String x a +:+ b = String x (a +:+ b).
Proof. reflexivity. Qed.

Lemma append_nil b : EmptyString +:+ b = b.
Proof. reflexivity. Qed.

Lemma has_dollar_append a b :
  has_dollar (a +:+ b) = has_dollar a || has_dollar b.
Proof.
  induction a as [|c a IH]; [reflexivity|].
  rewrite append_cons. cbn [has_dollar]. rewrite IH, orb_assoc. reflexivity.
Qed.

Lemma digits_have_no_dollar d :
  has_dollar (NilEmpty.string_of_uint d) = false.
Proof. induction d; cbn; auto. Qed.

Lemma decimal_has_no_dollar n : has_dollar (decimal n) = false.
Proof.
  unfold decimal, NilZero.string_of_int, NilZero.string_of_uint.
  destruct (Z.to_int n) as [d|d]; destruct d; cbn; auto;
    apply digits_have_no_dollar.
Qed.

Lemma zeros_have_no_dollar n : has_dollar (zeros n) = false.
Proof. induction n; cbn; auto. Qed.

Lemma Number_toString_has_no_dollar x : has_dollar (Number_toString x) = false.
Proof.
  unfold Number_toString.
  destruct (Z.log2 x + 1 <=? 53)%Z; [apply decimal_has_no_dollar|].
  destruct (shortest _ _ _ _ _ _ _) as [s n].
  pose proof (decimal_has_no_dollar s) as Hs.
  pose proof (decimal_has_no_dollar (n - 1)) as He.
  destruct (n <=? 21)%Z.
  - rewrite has_dollar_append, Hs, zeros_have_no_dollar. reflexivity.
  - destruct (decimal s) as [|d rest]; [reflexivity|].
    cbn [has_dollar] in Hs. apply orb_false_elim in Hs as [Hd Hrest].
    destruct rest as [|d' rest'];
      cbn [has_dollar]; rewrite Hd; cbn [orb];
      rewrite ?has_dollar_append, ?Hrest, ?He; reflexivity.
Qed.

(** The string form of a number holds no dollar sign. *)
Lemma number_has_no_dollar n : has_dollar (String_ (PNumber n)) = false.
Proof.
  cbn [String_]. destruct (n =? 0)%Z; [reflexivity|].
  assert (has_dollar match to_double (Z.abs n) with
                     | Some x => Number_toString x
                     | None => "Infinity"
                     end = false) as Hbody
    by (destruct (to_double (Z.abs n));
        [apply Number_toString_has_no_dollar | reflexivity]).
  destruct (n <? 0)%Z; [|exact Hbody].
  rewrite has_dollar_append, Hbody. reflexivity.
Qed.

Lemma substitute_plain url key v :
  has_dollar (String_ v) = false ->
  substitute url (key, v) = substitute_described url (key, v).
Proof.
  intros H. unfold substitute, substitute_described, includes, replace,
    replace_literal.
  destruct (indexOf url (":" +:+ key)); [|reflexivity].
  rewrite (GetSubstitution_plain _ _ _ _ H). reflexivity.
Qed.

(** Where no value holds a dollar sign [buildUrl] does what its
    description says. *)
Lemma buildUrl_plain path entries :
  Forall (fun kv => has_dollar (String_ (snd kv)) = false) entries ->
  buildUrl path (Some entries) = buildUrl_described path (Some entries).
Proof.
  cbn [buildUrl buildUrl_described]. revert path.
  induction entries as [|[key v] entries IH]; intros path H; [reflexivity|].
  apply Forall_cons in H as [Hv H]. cbn [fold_left].
  rewrite (substitute_plain path key v Hv). apply IH. exact H.
Qed.

(** Without parameters, or with none whose placeholder occurs, the path
    comes back as it is. *)
Lemma buildUrl_unchanged path entries :
  Forall (fun kv => includes path (":" +:+ fst kv) = false) entries ->
  buildUrl path None = path /\ buildUrl path (Some entries) = path.
Proof.
  intros H. split; [reflexivity|]. cbn [buildUrl].
  induction entries as [|[key v] entries IH]; [reflexivity|].
  apply Forall_cons in H as [Hk H]. cbn [fold_left substitute].
  cbn [fst] in Hk. rewrite Hk. apply IH. exact H.
Qed.

(** C10: the value is not always put in as it stands. [replace] reads its
    second argument as a template, so a value holding [$&], [$$], [$`] or
    [$'] is expanded: for the path "/api/users/:id" and the value "$&" the
    placeholder is put back, where the description gives "/api/users/$&";
    the value "a$$b" loses a dollar sign. *)
Theorem buildUrl_expands_dollar_patterns :
  buildUrl "/api/users/:id" (Some [("id", PString "$&")]) = "/api/users/:id" /\
  buildUrl_described "/api/users/:id" (Some [("id", PString "$&")])
    = "/api/users/$&" /\
  buildUrl "/api/users/:id" (Some [("id", PString "a$$b")])
    = "/api/users/a$b" /\
  buildUrl "/api/users/:id" (Some [("id", PNumber 123)]) = "/api/users/123".
Proof. repeat split; reflexivity. Qed.

(* ===================================================================== *)
(** ** More on the table: lookups and inserts *)
(* ===================================================================== *)

Lemma select_none e (l : list Subscriber) :
  ~ In e (map email l) ->
  List.filter (fun r => (email r =? e)%string) l = [].
Proof.
  induction l as [|a l IH]; intros Hn; [reflexivity|]. cbn.
  destruct (String.eqb_spec (email a) e) as [He|He].
  - exfalso. apply Hn. left. exact He.
  - apply IH. intros Hin. apply Hn. right. exact Hin.
Qed.

Lemma select_the_row (l : list Subscriber) r :
  NoDup (map email l) -> In r l ->
  List.filter (fun x => (email x =? email r)%string) l = [r].
Proof.
  induction l as [|a l IH]; intros Hnd Hin; [destruct Hin|].
  cbn in Hnd. apply NoDup_cons in Hnd as [Ha Hnd]. cbn.
  destruct Hin as [-> | Hin].
  - rewrite String.eqb_refl. f_equal. apply select_none.
    intros Hin. apply Ha, list_elem_of_In. exact Hin.
  - destruct (String.eqb_spec (email a) (email r)) as [He|He].
    + exfalso. apply Ha. rewrite He. apply list_elem_of_In.
      apply in_map. exact Hin.
    + apply IH; assumption.
Qed.

(** X1: [getSubscriberByEmail] answers with a row of the table that has
    the email asked for; it answers with no row exactly when no row has
    the email and the email is text the database accepts; it fails only
    with the refusal of a U+0000 in the email, and then no row has the
    email. In a table without duplicate emails it answers every row's own
    email by that very row, and in a table none of whose emails holds a
    U+0000 it fails exactly for the emails that hold one. *)
Theorem lookup_sound_and_complete e db :
  (forall r, getSubscriberByEmail e db = inr (Some r) ->
             In r (rows db) /\ email r = e) /\
  (getSubscriberByEmail e db = inr None <->
   ~ stored e db /\ has_nul e = false) /\
  (forall err, getSubscriberByEmail e db = inl err ->
               err = InvalidByteSequence /\ has_nul e = true /\
               ~ stored e db) /\
  (unique_emails db ->
   forall r, In r (rows db) ->
             getSubscriberByEmail (email r) db = inr (Some r)) /\
  ((forall r, In r (rows db) -> has_nul (email r) = false) ->
   (getSubscriberByEmail e db = inl InvalidByteSequence <->
    has_nul e = true)).
Proof.
  assert (forall err, getSubscriberByEmail e db = inl err ->
                      err = InvalidByteSequence /\ has_nul e = true /\
                      ~ stored e db) as Herr.
  { intros err Hr.
    destruct (classic_stored e db) as [Hs|Hn].
    - destruct (lookup_hit e db Hs) as (r & Hr'). congruence.
    - destruct (has_nul e) eqn:Hz.
      + rewrite (lookup_refused e db Hn Hz) in Hr. injection Hr as <-. auto.
      + rewrite (lookup_miss e db Hn Hz) in Hr. discriminate. }
  split; [|split; [|split; [exact Herr | split]]].
  - unfold getSubscriberByEmail, select_where_email. intros r Hr.
    destruct (List.filter _ (rows db)) as [|r' l] eqn:Hf;
      [destruct (has_nul e); discriminate|].
    injection Hr as ->.
    assert (In r (r :: l)) as Hin by (left; reflexivity).
    rewrite <- Hf in Hin. apply filter_In in Hin as [Hin He].
    split; [exact Hin | apply String.eqb_eq; exact He].
  - split; [|intros [Hn Hz]; apply lookup_miss; assumption].
    intros Hnone. split.
    + intros Hs. destruct (lookup_hit e db Hs) as (r & Hr). congruence.
    + destruct (has_nul e) eqn:Hz; [|reflexivity].
      destruct (classic_stored e db) as [Hs|Hn].
      * destruct (lookup_hit e db Hs) as (r & Hr). congruence.
      * rewrite (lookup_refused e db Hn Hz) in Hnone. discriminate.
  - intros Hu r Hin. unfold getSubscriberByEmail, select_where_email.
    rewrite (select_the_row (rows db) r Hu Hin). reflexivity.
  - intros Htext. split; [intros Hr; apply (Herr _ Hr)|].
    intros Hz. apply lookup_refused; [|exact Hz].
    intros (r & Hin & <-). rewrite (Htext r Hin) in Hz. discriminate.
Qed.

(** The row a successful insert returns, and what lookups find after it. *)
Lemma created_row_is_found v now db s db' :
  createSubscriber v now db = (inr (Some s), db') ->
  s = mkSubscriber (id_seq db) (insert_email v) (Some now) /\
  rows db' = (rows db ++ [s])%list /\
  id_seq db' = id_seq db + 1 /\
  getSubscriberByEmail (insert_email v) db' = inr (Some s) /\
  forall e, e <> insert_email v ->
            getSubscriberByEmail e db' = getSubscriberByEmail e db.
Proof.
  unfold createSubscriber.
  insert_cases v db; try discriminate.
  cbn. intros [= <- <-]. repeat split.
  - unfold getSubscriberByEmail, select_where_email. cbn [rows].
    rewrite List.filter_app. cbn. rewrite String.eqb_refl.
    rewrite select_none; [reflexivity|].
    intros Hin. apply in_map_iff in Hin as (r & Hr & Hin).
    assert (has_email (insert_email v) db = true) as Ht
      by (apply has_email_stored; exists r; auto).
    congruence.
  - intros e Hne. unfold getSubscriberByEmail, select_where_email. cbn [rows].
    rewrite List.filter_app. cbn.
    destruct (String.eqb_spec (insert_email v) e) as [Heq|_]; [congruence|].
    rewrite app_nil_r. reflexivity.
Qed.

(** X2: a successful [createSubscriber] returns the row it appended: the
    next value of the sequence, the email of the request, the time of the
    insert; a lookup of that email then finds this row, and the lookup of
    any other email answers as before. *)
Theorem create_then_lookup v now db s db' :
  createSubscriber v now db = (inr (Some s), db') ->
  s = mkSubscriber (id_seq db) (insert_email v) (Some now) /\
  rows db' = (rows db ++ [s])%list /\
  id_seq db' = id_seq db + 1 /\
  getSubscriberByEmail (insert_email v) db' = inr (Some s) /\
  forall e, e <> insert_email v ->
            getSubscriberByEmail e db' = getSubscriberByEmail e db.
Proof. exact (created_row_is_found v now db s db'). Qed.

Lemma create_then_lookup_witness :
  getSubscriberByEmail "a@example.com" one_subscriber
    = inr (Some (mkSubscriber 1 "a@example.com" (Some 1000))) /\
  getSubscriberByEmail "b@example.com" one_subscriber
    = getSubscriberByEmail "b@example.com" empty_db.
Proof.
  destruct (create_then_lookup (mkInsert "a@example.com") 1000 empty_db
              (mkSubscriber 1 "a@example.com" (Some 1000)) one_subscriber
              eq_refl)
    as (_ & _ & _ & H1 & H2).
  split; [exact H1 | apply H2; discriminate].
Defined.

(** X3: why [createSubscriber] fails, on a table whose ids came out of
    the sequence. It fails for four reasons only: a U+0000 in the email
    (nothing changes), a sequence that has passed the last value of a
    32-bit serial (nothing changes), an email that is already stored, or
    an email too long for a row of the unique index; the last two fail
    after the sequence gave its value, which is lost. Every failure
    leaves the rows as they were. So for an email the database can store
    and a sequence that has a value left, the insert fails exactly when
    the email is already stored, with the violation of the unique index
    on [email]. *)
Theorem create_fails_iff_stored v now db :
  ids_below_seq db ->
  (forall err db',
     createSubscriber v now db = (inl err, db') ->
     rows db' = rows db /\
     ((err = InvalidByteSequence /\
       has_nul (insert_email v) = true /\ db' = db) \/
      (err = SequenceExhausted "subscribers_id_seq" /\
       max_serial < id_seq db /\ db' = db) \/
      (err = UniqueViolation "subscribers_email_unique" /\
       stored (insert_email v) db /\ id_seq db' = id_seq db + 1) \/
      (err = ProgramLimitExceeded "subscribers_email_unique" /\
       index_row_fits (insert_email v) = false /\
       ~ stored (insert_email v) db /\ id_seq db' = id_seq db + 1))) /\
  (storable (insert_email v) -> ids_left 1 db ->
   (stored (insert_email v) db <->
    exists err, fst (createSubscriber v now db) = inl err) /\
   (forall err db',
      createSubscriber v now db = (inl err, db') ->
      err = UniqueViolation "subscribers_email_unique")).
Proof.
  intros Hids. unfold createSubscriber. split.
  - intros err db'. insert_cases v db; cbn; intros [= <- <-];
      (split; [reflexivity|]).
    + left. auto.
    + right. left. repeat split. apply Z.ltb_lt. assumption.
    + rewrite (fresh_id db Hids) in *. discriminate.
    + right. right. left. repeat split. apply has_email_stored. assumption.
    + right. right. right. repeat split.
      intros Hs. apply has_email_stored in Hs. congruence.
  - intros [Hz Hfit] Hleft. unfold insert_returning. cbn [id email].
    rewrite Hz, (sequence_gives db Hleft), (fresh_id db Hids), Hfit.
    cbn [negb].
    destruct (has_email (insert_email v) db) eqn:He; cbn.
    + split.
      * split; [eauto | intros _; apply has_email_stored; exact He].
      * intros err db' [= <- _]. reflexivity.
    + split.
      * split; [|intros (err & Herr); discriminate].
        intros Hs. apply has_email_stored in Hs. congruence.
      * intros err db'. discriminate.
Qed.

Lemma create_fails_iff_stored_witness :
  stored "a@example.com" one_subscriber <->
  exists err,
    fst (createSubscriber (mkInsert "a@example.com") 2000 one_subscriber)
      = inl err.
Proof.
  refine (proj1 (proj2 (create_fails_iff_stored (mkInsert "a@example.com")
                          2000 one_subscriber _) _ _)).
  - repeat constructor.
  - split; reflexivity.
  - unfold ids_left, max_serial. cbn. lia.
Defined.
(* ===================================================================== *)
(** ** More on the handler *)
(* ===================================================================== *)

Lemma insert_keeps_unique_ids v now db :
  unique_ids db -> unique_ids (snd (insert_returning v now db)).
Proof.
  unfold unique_ids. intros H.
  insert_cases v db; cbn [snd rows]; try assumption.
  rewrite map_app. cbn. apply NoDup_app. split; [exact H|].
  split; [|apply NoDup_singleton].
  intros x Hx Hx'. apply list_elem_of_singleton in Hx'. subst x.
  apply list_elem_of_In, in_map_iff in Hx as (r & Hr & Hin).
  assert (has_id (id_seq db) db = true) as Ht.
  { unfold has_id. apply existsb_exists. exists r. split; [exact Hin|].
    apply Z.eqb_eq. exact Hr. }
  congruence.
Qed.

Lemma insert_keeps_table v now db :
  table_ok db -> table_ok (snd (insert_returning v now db)).
Proof.
  intros (H1 & H2 & H3). split; [|split].
  - apply insert_keeps_ids. exact H1.
  - apply insert_keeps_unique_ids. exact H2.
  - apply insert_keeps_unique. exact H3.
Qed.

Lemma insert_appends v now db :
  (rows (snd (insert_returning v now db)) = rows db \/
   exists s, rows (snd (insert_returning v now db)) = (rows db ++ [s])%list) /\
  id_seq db <= id_seq (snd (insert_returning v now db)).
Proof.
  insert_cases v db; cbn; (split; [|lia]);
    try (left; reflexivity). right. eexists. reflexivity.
Qed.

(** X4: in every table that sequences of requests reach from the empty
    one the ids are pairwise different and all below the next value of the
    sequence, and no two rows share an email. *)
Theorem reachable_table_ok checks db :
  reachable checks db -> table_ok db.
Proof.
  induction 1 as [|now req_body db _ IH].
  - repeat split; constructor.
  - rewrite subscribe_store.
    destruct (handler_store checks now req_body (mkWorld db []))
      as [-> | (v & ->)]; [exact IH | apply insert_keeps_table; exact IH].
Qed.

Lemma reachable_table_ok_witness : table_ok one_subscriber.
Proof.
  exact (reachable_table_ok text_column_checks one_subscriber
           (reach_subscribe text_column_checks 1000
              (email_body "a@example.com") empty_db
              (reach_empty text_column_checks))).
Defined.

(** X22: no row of a table that sequences of requests reach from the
    empty one holds an email with a U+0000, and every id is one that a
    32-bit serial can hold: between 1 and 2147483647. *)
Theorem reachable_rows_well_formed checks db :
  reachable checks db ->
  forall r, In r (rows db) ->
            has_nul (email r) = false /\ 1 <= id r <= max_serial.
Proof.
  intros Hr.
  assert ((forall r, In r (rows db) ->
             has_nul (email r) = false /\ 1 <= id r <= max_serial) /\
          1 <= id_seq db) as [H _]; [|exact H].
  induction Hr as [|now req_body db _ [IH Hseq]].
  - split; [intros r [] | cbn; lia].
  - rewrite subscribe_store.
    destruct (handler_store checks now req_body (mkWorld db []))
      as [-> | (v & ->)]; [split; assumption|]. cbn [store].
    insert_cases v db; cbn [snd rows id_seq];
      try (split; [exact IH | lia]).
    split; [|lia]. intros r Hin. apply in_app_or in Hin as [Hin | [<- | []]];
      [apply IH; exact Hin|]. cbn [email id].
    repeat split; try assumption; cbn in Hseq; lia.
Qed.

Lemma reachable_rows_well_formed_witness :
  has_nul "a@example.com" = false /\ 1 <= 1 <= max_serial.
Proof.
  exact (reachable_rows_well_formed text_column_checks one_subscriber
           (reach_subscribe text_column_checks 1000
              (email_body "a@example.com") empty_db
              (reach_empty text_column_checks))
           (mkSubscriber 1 "a@example.com" (Some 1000))
           (or_introl eq_refl)).
Defined.

(** X5: a request writes exactly when it is answered 201: then the row of
    the answer is appended to the table and a lookup of its email finds
    it; in every other case, a rethrown database error included, the rows
    are what they were. The sequence never goes back. *)
Theorem handler_writes_iff_created checks now req_body w r w' :
  handler checks now req_body w = (r, w') ->
  (forall s, r = inr (created_response s) ->
     rows (store w') = (rows (store w) ++ [s])%list /\
     getSubscriberByEmail (email s) (store w') = inr (Some s)) /\
  ((forall s, r <> inr (created_response s)) ->
     rows (store w') = rows (store w)) /\
  id_seq (store w) <= id_seq (store w').
Proof.
  intros Hh.
  destruct (handler_cases checks now req_body w)
    as [(first & rest & _ & H) | [(v & _ & _ & H) | [(v & _ & _ & _ & H) |
        [(v & s & db' & _ & _ & _ & Hc & H) |
         (v & err & db' & _ & _ & _ & Hc & H)]]]];
    rewrite H in Hh; injection Hh as <- <-; cbn [store].
  - split; [intros s; discriminate|]. split; [reflexivity | lia].
  - split; [intros s; discriminate|]. split; [reflexivity | lia].
  - split; [intros s; discriminate|]. split; [reflexivity | lia].
  - destruct (created_row_is_found v now (store w) s db' Hc)
      as (Hs & Hrows & Hseq & Hlook & _).
    split; [|split; [|lia]].
    + intros s' [= <-]. split; [exact Hrows|].
      rewrite Hs at 1. cbn [email]. exact Hlook.
    + intros Hno. exfalso. exact (Hno s eq_refl).
  - split; [intros s; discriminate|]. split.
    + intros _. unfold createSubscriber in Hc.
      destruct (insert_returning v now (store w)) as [[e|rs] d] eqn:Hi;
        [|discriminate].
      injection Hc as _ <-. exact (insert_rejected_keeps_rows _ _ _ _ _ Hi).
    + unfold createSubscriber in Hc.
      pose proof (insert_appends v now (store w)) as [_ Hle].
      destruct (insert_returning v now (store w)) as [[e|rs] d];
        [|discriminate].
      injection Hc as _ <-. exact Hle.
Qed.

Lemma handler_writes_iff_created_witness :
  rows one_subscriber
    = (rows empty_db ++ [mkSubscriber 1 "a@example.com" (Some 1000)])%list /\
  getSubscriberByEmail "a@example.com" one_subscriber
    = inr (Some (mkSubscriber 1 "a@example.com" (Some 1000))).
Proof.
  exact (proj1 (handler_writes_iff_created text_column_checks 1000
                  (email_body "a@example.com") (mkWorld empty_db [])
                  (inr (created_response
                          (mkSubscriber 1 "a@example.com" (Some 1000))))
                  (mkWorld one_subscriber
                     [CallGetSubscriberByEmail "a@example.com";
                      CallCreateSubscriber (mkInsert "a@example.com")])
                  eq_refl)
               (mkSubscriber 1 "a@example.com" (Some 1000)) eq_refl).
Defined.

(** Served alone on a table whose ids came out of a sequence that has a
    value left, a request for an email the database can store does not
    rethrow. *)
Lemma handler_alone_answers checks now req_body w :
  ids_below_seq (store w) ->
  ids_left 1 (store w) ->
  (forall v, Server.validate checks req_body = Success v ->
             storable (insert_email v)) ->
  exists response, fst (handler checks now req_body w) = inr response.
Proof.
  intros Hids Hleft Hst.
  destruct (handler_cases checks now req_body w)
    as [(first & rest & _ & H) | [(v & _ & _ & H) |
        [(v & Hv & _ & Hz & H) |
         [(v & s & db' & _ & _ & _ & _ & H) |
          (v & err & db' & Hv & Hn & _ & Hc & H)]]]].
  - eexists. rewrite H. reflexivity.
  - eexists. rewrite H. reflexivity.
  - exfalso. destruct (Hst v Hv) as [Hz' _]. congruence.
  - eexists. rewrite H. reflexivity.
  - exfalso. unfold createSubscriber in Hc.
    destruct (Hst v Hv) as [Hz Hfit].
    destruct v as [e]. cbn [insert_email] in *.
    rewrite (insert_fresh e now (store w) (conj Hz Hfit) Hleft Hids Hn) in Hc.
    discriminate.
Qed.

(** X6: the storage calls of a request are none at all (answer 400), the
    lookup of the parsed email alone (the lookup found a row, or the
    database refused the lookup), or that lookup followed by the insert of
    the parsed input (the lookup found no row): the insert is never
    attempted without a lookup that missed, and never for another email
    than the one looked up. *)
Theorem insert_only_after_missed_lookup checks now req_body w :
  exists tr,
    calls (snd (handler checks now req_body w)) = (calls w ++ tr)%list /\
    ((tr = [] /\
      exists errors, Server.validate checks req_body = Failure errors) \/
     exists v,
       Server.validate checks req_body = Success v /\
       ((tr = [CallGetSubscriberByEmail (insert_email v)] /\
         exists r, getSubscriberByEmail (insert_email v) (store w)
                   = inr (Some r)) \/
        (tr = [CallGetSubscriberByEmail (insert_email v)] /\
         exists err, getSubscriberByEmail (insert_email v) (store w)
                     = inl err) \/
        (tr = [CallGetSubscriberByEmail (insert_email v);
               CallCreateSubscriber v] /\
         getSubscriberByEmail (insert_email v) (store w) = inr None))).
Proof.
  destruct (handler_cases checks now req_body w)
    as [(first & rest & Hv & H) | [(v & Hv & Hs & H) |
        [(v & Hv & Hn & Hz & H) |
         [(v & s & db' & Hv & Hn & Hz & _ & H) |
          (v & err & db' & Hv & Hn & Hz & _ & H)]]]];
    rewrite H; cbn [snd calls].
  - exists []. split; [rewrite app_nil_r; reflexivity|]. left. eauto.
  - eexists. split; [reflexivity|]. right. exists v.
    split; [exact Hv|]. left. split; [reflexivity|]. apply lookup_hit, Hs.
  - eexists. split; [reflexivity|]. right. exists v.
    split; [exact Hv|]. right. left. split; [reflexivity|].
    eexists. apply lookup_refused; assumption.
  - eexists. split; [reflexivity|]. right. exists v.
    split; [exact Hv|]. right. right. split; [reflexivity|].
    apply lookup_miss; assumption.
  - eexists. split; [reflexivity|]. right. exists v.
    split; [exact Hv|]. right. right. split; [reflexivity|].
    apply lookup_miss; assumption.
Qed.

(** X7: served with no other request in flight, on a table whose ids came
    out of the sequence and whose sequence has a value left, a request
    whose email (if it has one that passes validation) is text the
    database can store is always answered, with 201, 400 or 409: the
    handler does not rethrow, so the error middleware does not answer
    500. *)
Theorem handler_alone_always_answers checks now req_body w :
  ids_below_seq (store w) ->
  ids_left 1 (store w) ->
  (forall v, Server.validate checks req_body = Success v ->
             storable (insert_email v)) ->
  exists response,
    fst (handler checks now req_body w) = inr response /\
    (status response = 201 \/ status response = 400 \/ status response = 409) /\
    fst (serve checks now req_body w) = response.
Proof.
  intros Hids Hleft Hst.
  assert (forall r w', handler checks now req_body w = (inr r, w') ->
            fst (serve checks now req_body w) = r) as Hserve
    by (intros r w' H; unfold serve; rewrite H; reflexivity).
  destruct (handler_cases checks now req_body w)
    as [(first & rest & _ & H) | [(v & _ & _ & H) |
        [(v & Hv & _ & Hz & H) |
         [(v & s & db' & _ & _ & _ & _ & H) |
          (v & err & db' & Hv & Hn & _ & Hc & H)]]]].
  - eexists. rewrite H. split; [reflexivity|]. split; [auto | eapply Hserve, H].
  - eexists. rewrite H. split; [reflexivity|]. split; [auto | eapply Hserve, H].
  - exfalso. destruct (Hst v Hv) as [Hz' _]. congruence.
  - eexists. rewrite H. split; [reflexivity|]. split; [auto | eapply Hserve, H].
  - exfalso. unfold createSubscriber in Hc.
    destruct (Hst v Hv) as [Hz Hfit].
    destruct v as [e]. cbn [insert_email] in *.
    rewrite (insert_fresh e now (store w) (conj Hz Hfit) Hleft Hids Hn) in Hc.
    discriminate.
Qed.

Lemma handler_alone_always_answers_witness :
  exists response,
    fst (handler text_column_checks 2000 (email_body "b@example.com")
           (mkWorld one_subscriber []))
      = inr response /\
    (status response = 201 \/ status response = 400 \/ status response = 409).
Proof.
  destruct (handler_alone_always_answers text_column_checks 2000
              (email_body "b@example.com") (mkWorld one_subscriber []))
    as (response & H1 & H2 & _).
  - repeat constructor.
  - unfold ids_left, max_serial. cbn. lia.
  - intros v [= <-]. split; reflexivity.
  - exists response. split; [exact H1 | exact H2].
Defined.

(** X8: what the handler rethrows. It is always an error of the database,
    raised after validation succeeded, for an email that no row holds:
    either the lookup was refused because the email holds a U+0000 (the
    insert is then not attempted and the table is untouched), or the
    lookup found no row and the insert failed, and then not on the unique
    index on [email]: the sequence is exhausted, the email is too long
    for a row of the index, or the table holds an id the sequence has not
    reached. Reading the first issue of a [ZodError] never fails, and a
    request served alone never rethrows the violation of the unique index
    on [email]. *)
Theorem handler_rethrows_only_database_errors checks now req_body w err :
  fst (handler checks now req_body w) = inl err ->
  exists v e,
    err = DatabaseError e /\
    Server.validate checks req_body = Success v /\
    ~ stored (insert_email v) (store w) /\
    e <> UniqueViolation "subscribers_email_unique" /\
    rows (store (snd (handler checks now req_body w))) = rows (store w) /\
    ((e = InvalidByteSequence /\
      getSubscriberByEmail (insert_email v) (store w) = inl e /\
      snd (handler checks now req_body w)
        = mkWorld (store w)
            (calls w ++ [CallGetSubscriberByEmail (insert_email v)])%list) \/
     (getSubscriberByEmail (insert_email v) (store w) = inr None /\
      (exists db', createSubscriber v now (store w) = (inl e, db')) /\
      ((e = SequenceExhausted "subscribers_id_seq" /\
        ~ ids_left 1 (store w)) \/
       (e = ProgramLimitExceeded "subscribers_email_unique" /\
        index_row_fits (insert_email v) = false) \/
       (e = UniqueViolation "subscribers_pkey" /\
        ~ ids_below_seq (store w))))).
Proof.
  destruct (handler_cases checks now req_body w)
    as [(first & rest & _ & H) | [(v & _ & _ & H) |
        [(v & Hv & Hn & Hz & H) |
         [(v & s & db' & _ & _ & _ & _ & H) |
          (v & e & db' & Hv & Hn & Hz & Hc & H)]]]];
    rewrite H; cbn [fst snd store]; try discriminate.
  - intros [= <-]. exists v, InvalidByteSequence.
    split; [reflexivity|]. split; [exact Hv|]. split; [exact Hn|].
    split; [discriminate|]. split; [reflexivity|].
    left. split; [reflexivity|]. split; [|reflexivity].
    apply lookup_refused; assumption.
  - intros [= <-]. exists v, e.
    assert (exists d, insert_returning v now (store w) = (inl e, d) /\
                      d = db') as (d & Hi & ->).
    { unfold createSubscriber in Hc.
      destruct (insert_returning v now (store w)) as [[e'|rs] d];
        [|discriminate].
      injection Hc as <- <-. eauto. }
    pose proof (insert_rejected_keeps_rows _ _ _ _ _ Hi) as Hrows.
    destruct (insert_rejected_cases _ _ _ _ _ Hi)
      as [[-> Hz'] | [[-> Hl] | [[-> Hp] | [[-> Hs] | [-> Hf]]]]];
      try congruence; try contradiction;
      (split; [reflexivity|]); (split; [exact Hv|]); (split; [exact Hn|]);
      (split; [discriminate|]); (split; [exact Hrows|]);
      right; (split; [apply lookup_miss; assumption|]);
      (split; [exists db'; exact Hc|]); auto.
Qed.

Lemma handler_rethrows_only_database_errors_witness :
  exists v e,
    Server.validate text_column_checks (email_body nul_email) = Success v /\
    getSubscriberByEmail (insert_email v) one_subscriber = inl e /\
    e <> UniqueViolation "subscribers_email_unique".
Proof.
  destruct (handler_rethrows_only_database_errors text_column_checks 0
              (email_body nul_email) (mkWorld one_subscriber [])
              (DatabaseError InvalidByteSequence) eq_refl)
    as (v & e & _ & Hv & _ & He & _ & [(_ & Hl & _) | (Hl & _)]).
  - exists v, e. auto.
  - exfalso. injection Hv as <-. discriminate Hl.
Defined.

(** X9: a body that is not an object (absent, null, a string, a number,
    an array) is answered 400 without touching storage; the issue sits at
    the root, so [field] is the empty string, and the message is
    "Required" for an absent body and names the received type
    otherwise. *)
Theorem non_object_body_rejected checks now req_body w :
  (forall props, req_body <> VObject props) ->
  handler checks now req_body w
    = (inr (mkResponse 400
              (MessageJson
                 (match req_body with
                  | VUndefined => "Required"
                  | _ => "Expected object, received "
                           +:+ getParsedType req_body
                  end)
                 (Some EmptyString))), w).
Proof.
  intros Hno.
  assert (Server.validate checks req_body
          = Failure [invalid_type "object" req_body []]) as Hv.
  { unfold Server.validate. cbn [input api_subscribers_create].
    unfold insertSubscriberSchema.
    destruct req_body; try reflexivity. exfalso. exact (Hno props eq_refl). }
  rewrite (handler_invalid checks now req_body w _ _ Hv).
  destruct req_body; reflexivity.
Qed.

Lemma non_object_body_rejected_witness :
  handler text_column_checks 0 (VArray [VString "a@example.com"])
    (mkWorld one_subscriber [])
    = (inr (mkResponse 400
              (MessageJson "Expected object, received array"
                           (Some EmptyString))),
       mkWorld one_subscriber []).
Proof.
  refine (non_object_body_rejected text_column_checks 0
            (VArray [VString "a@example.com"]) (mkWorld one_subscriber []) _).
  intros props. discriminate.
Defined.

(** X21: an object body whose [email] field the schema rejects (the field
    is absent or is not a string, or it fails a string check of the
    generated schema, of which a text column has none) is answered 400
    with the message of the first issue and [field = "email"]; the world
    comes back as it was, so neither storage call was made and no row was
    written. *)
Theorem invalid_email_rejected_without_io checks now props w :
  email_rule checks (get props "email") = false ->
  exists msg,
    handler checks now (VObject props) w
      = (inr (mkResponse 400 (MessageJson msg (Some "email"))), w) /\
    outcome (inr (mkResponse 400 (MessageJson msg (Some "email"))))
      = ValidationError /\
    (msg = message (invalid_type "string" (get props "email") ["email"]) \/
     exists c, In c checks /\ msg = check_message c).
Proof.
  intros Hr. apply email_rule_failure in Hr as (i & rest & Hp & Hpath & Hmsg).
  exists (message i). split; [|split; [reflexivity | exact Hmsg]].
  exact (handler_rejects checks now props w i rest Hp Hpath).
Qed.

Lemma invalid_email_rejected_witness :
  exists msg,
    handler text_column_checks 0 (VObject [("email", VNumber 42)])
      (mkWorld empty_db [])
      = (inr (mkResponse 400 (MessageJson msg (Some "email"))),
         mkWorld empty_db []) /\
    msg = "Expected string, received number".
Proof.
  destruct (invalid_email_rejected_without_io text_column_checks 0
              [("email", VNumber 42)] (mkWorld empty_db []) eq_refl)
    as (msg & Hh & _ & [Hm | (c & [] & _)]).
  exists msg. split; [exact Hh | exact Hm].
Defined.


(* ===================================================================== *)
(** ** More on requests in flight together *)
(* ===================================================================== *)

Lemma step_store checks now t w :
  store (snd (step checks now t w)) = store w \/
  exists v,
    store (snd (step checks now t w)) = snd (insert_returning v now (store w)).
Proof.
  destruct t as [b|v|v|r]; cbn [step].
  - left. destruct (Server.validate checks b) as [v|[|first rest]]; reflexivity.
  - left. unfold storage_getSubscriberByEmail. cbn.
    destruct (getSubscriberByEmail _ _) as [err|[r|]]; reflexivity.
  - right. exists v. unfold storage_createSubscriber, createSubscriber.
    destruct (insert_returning v now (store w)) as [[err|rs] d]; reflexivity.
  - left. reflexivity.
Qed.

Lemma pool_step_store checks ev (p : pool) w :
  store (snd (pool_step checks ev (p, w))) = store w \/
  exists v now,
    store (snd (pool_step checks ev (p, w)))
      = snd (insert_returning v now (store w)).
Proof.
  destruct ev as [i now]. cbn [pool_step].
  destruct (p !! i) as [t|]; [|left; reflexivity].
  pose proof (step_store checks now t w) as H.
  destruct (step checks now t w) as [t' w']. cbn [snd] in *.
  destruct H as [H | (v & H)]; [left; exact H | right; eauto].
Qed.

(** X10: however the requests in flight are interleaved, and whatever they
    ask for, the table keeps its invariants (ids below the sequence, ids
    pairwise different, emails pairwise different), rows are only ever
    appended (the table before is a prefix of the table after: no row is
    changed or removed) and the sequence never goes back. *)
Theorem interleaving_keeps_table checks schedule (p : pool) w :
  table_ok (store w) ->
  table_ok (store (snd (run checks schedule (p, w)))) /\
  rows (store w) `prefix_of` rows (store (snd (run checks schedule (p, w)))) /\
  id_seq (store w) <= id_seq (store (snd (run checks schedule (p, w)))).
Proof.
  revert p w. induction schedule as [|ev schedule IH]; intros p w Hok.
  - split; [exact Hok|]. split; [reflexivity | cbn; lia].
  - rewrite run_cons.
    pose proof (pool_step_store checks ev p w) as Hst.
    destruct (pool_step checks ev (p, w)) as [p' w']. cbn [snd] in Hst.
    assert (table_ok (store w') /\
            rows (store w) `prefix_of` rows (store w') /\
            id_seq (store w) <= id_seq (store w')) as (Hok' & Hpre & Hseq).
    { destruct Hst as [-> | (v & now & ->)].
      - split; [exact Hok|]. split; [reflexivity | lia].
      - split; [apply insert_keeps_table; exact Hok|].
        destruct (insert_appends v now (store w)) as [[-> | (s & ->)] Hle].
        + split; [reflexivity | exact Hle].
        + split; [apply prefix_app_r; reflexivity | exact Hle]. }
    destruct (IH p' w' Hok') as (H1 & H2 & H3).
    split; [exact H1|]. split; [etransitivity; eassumption | lia].
Qed.

Lemma interleaving_keeps_table_witness :
  table_ok (store (snd (run text_column_checks alternating two_requests))) /\
  rows empty_db
    `prefix_of` rows (store (snd (run text_column_checks alternating
                                    two_requests))).
Proof.
  destruct (interleaving_keeps_table text_column_checks alternating
              (same_requests "a@example.com" 2) (mkWorld empty_db []))
    as (H1 & H2 & _).
  - repeat split; constructor.
  - split; [exact H1 | exact H2].
Defined.

Lemma requests_for_lookup emails i e :
  emails !! i = Some e ->
  requests_for emails !! i = Some (Received (email_body e)).
Proof.
  revert i. induction emails as [|a emails IH]; intros [|i] H;
    try discriminate.
  - injection H as ->. reflexivity.
  - cbn in *. apply IH. exact H.
Qed.

(** A step of a request that nobody disturbs. *)
Lemma step_undisturbed checks now e t w :
  valid_email checks e ->
  storable e ->
  ids_below_seq (store w) ->
  (is_checked t = true -> ids_left 1 (store w)) ->
  undisturbed e t w ->
  undisturbed e (fst (step checks now t w)) (snd (step checks now t w)) /\
  ids_below_seq (store (snd (step checks now t w))) /\
  (store (snd (step checks now t w)) = store w /\
   has_outcome Created (fst (step checks now t w)) = has_outcome Created t \/
   exists s,
     email s = e /\
     rows (store (snd (step checks now t w))) = (rows (store w) ++ [s])%list /\
     id_seq (store (snd (step checks now t w))) = id_seq (store w) + 1 /\
     has_outcome Created t = false /\
     has_outcome Created (fst (step checks now t w)) = true).
Proof.
  intros Hv Hst Hids Hleft (Hok & Hfresh & Hdone).
  destruct t as [b|v|v|r]; cbn in Hok; subst.
  - cbn [step]. unfold Server.validate, email_body.
    cbn [input api_subscribers_create].
    rewrite (parse_picks_email checks _ e (email_body_get e) Hv). cbn.
    repeat split; auto.
    + intros _. apply Hfresh. cbn. lia.
    + discriminate.
  - assert (~ stored e (store w)) as Hn by (apply Hfresh; cbn; lia).
    cbn [step]. unfold storage_getSubscriberByEmail. cbn.
    rewrite (lookup_miss _ _ Hn (proj1 Hst)). cbn.
    repeat split; auto. discriminate.
  - assert (~ stored e (store w)) as Hn by (apply Hfresh; cbn; lia).
    cbn [step]. unfold storage_createSubscriber, createSubscriber. cbn.
    rewrite (insert_fresh _ _ _ Hst (Hleft eq_refl) Hids Hn). cbn.
    repeat split.
    + right. left. eexists. split; reflexivity.
    + intros H. cbn in H. lia.
    + intros r [= <-]. eexists. split; [reflexivity|]. split; [reflexivity|].
      apply in_or_app. right. left. reflexivity.
    + unfold ids_below_seq in *. cbn. apply Forall_app. split.
      * eapply Forall_impl; [exact Hids | cbn; intros; lia].
      * constructor; [cbn; lia | constructor].
    + right. eexists. repeat split; reflexivity.
  - cbn. repeat split; auto.
Qed.

Lemma count_outcome_le o (p : pool) : (count_outcome o p <= length p)%nat.
Proof. unfold count_outcome. apply List.filter_length_le. Qed.

(** A request is not disturbed by the rows others append for their own,
    different emails. *)
Lemma undisturbed_by_others e t w w' :
  undisturbed e t w ->
  (store w' = store w \/
   exists s, email s <> e /\
             rows (store w') = (rows (store w) ++ [s])%list) ->
  undisturbed e t w'.
Proof.
  intros (Hok & Hfresh & Hdone) Hst. split; [exact Hok|].
  destruct Hst as [-> | (s & Hs & Hrows)]; [split; assumption|].
  split.
  - intros Hpos (r & Hin & He). rewrite Hrows in Hin.
    apply in_app_or in Hin as [Hin | [<- | []]]; [|contradiction].
    apply (Hfresh Hpos). exists r. auto.
  - intros r Hr. destruct (Hdone r Hr) as (s' & H1 & H2 & H3).
    exists s'. repeat split; auto. rewrite Hrows. apply in_or_app. left.
    exact H3.
Qed.

Lemma pool_step_distinct checks emails ev (p : pool) w base :
  Forall (valid_email checks) emails ->
  Forall storable emails ->
  NoDup emails ->
  distinct_inv emails p w ->
  length (rows (store w)) = (base + count_outcome Created p)%nat ->
  distinct_inv emails (fst (pool_step checks ev (p, w)))
                      (snd (pool_step checks ev (p, w))) /\
  length (rows (store (snd (pool_step checks ev (p, w)))))
    = (base + count_outcome Created (fst (pool_step checks ev (p, w))))%nat.
Proof.
  intros Hvalid Hstorable Hnd [Hlen Hids Hleft Htasks] Hcount.
  destruct ev as [j now]. cbn [pool_step].
  destruct (p !! j) as [t|] eqn:Hj; [|split; [constructor|]; assumption].
  assert (exists ej, emails !! j = Some ej) as (ej & Hej).
  { apply lookup_lt_is_Some. rewrite <- Hlen. eapply lookup_lt_Some. exact Hj. }
  assert (valid_email checks ej) as Hv.
  { rewrite List.Forall_forall in Hvalid. apply Hvalid, list_elem_of_In.
    eapply list_elem_of_lookup_2. exact Hej. }
  assert (storable ej) as Hst.
  { rewrite List.Forall_forall in Hstorable. apply Hstorable, list_elem_of_In.
    eapply list_elem_of_lookup_2. exact Hej. }
  pose proof (count_outcome_insert Created p j t (fst (step checks now t w)) Hj)
    as Hins.
  pose proof (count_outcome_le Created
                (<[j := fst (step checks now t w)]> p)) as Hbound.
  rewrite length_insert, Hlen in Hbound.
  assert (is_checked t = true -> ids_left 1 (store w)) as Hone.
  { intros Hchk. destruct t; try discriminate.
    pose proof (count_outcome_insert Created p j _
                  (Finished (inr (created_response
                                    (mkSubscriber 0 ej None)))) Hj) as Hins'.
    pose proof (count_outcome_le Created
                  (<[j := Finished (inr (created_response
                                           (mkSubscriber 0 ej None)))]> p))
      as Hbound'.
    rewrite length_insert, Hlen in Hbound'. cbn in Hins'.
    unfold ids_left in *. lia. }
  destruct (step_undisturbed checks now ej t w Hv Hst Hids Hone
              (Htasks j ej t Hej Hj))
    as (Hund & Hids' & Heff).
  destruct (step checks now t w) as [t' w']. cbn [fst snd] in *.
  split.
  - constructor; cbn [fst snd].
    + rewrite length_insert. exact Hlen.
    + exact Hids'.
    + unfold ids_left in *.
      destruct Heff as [[-> Hsame] | (s & _ & _ & -> & Hf & Ht)].
      * rewrite Hsame in Hins. destruct (has_outcome Created t); lia.
      * rewrite Hf, Ht in Hins. lia.
    + intros i e t0 Hi Hl.
      destruct (Nat.eq_dec j i) as [<- | Hne].
      * rewrite list_lookup_insert_eq in Hl
          by (eapply lookup_lt_Some; exact Hj).
        injection Hl as <-. rewrite Hej in Hi. injection Hi as <-. exact Hund.
      * rewrite list_lookup_insert_ne in Hl by exact Hne.
        apply (undisturbed_by_others e t0 w w' (Htasks i e t0 Hi Hl)).
        destruct Heff as [[Hsame _] | (s & Hs & Hrows & _)];
          [left; exact Hsame | right].
        exists s. split; [|exact Hrows]. rewrite Hs. intros Heq. subst e.
        apply Hne. exact (NoDup_lookup emails j i ej Hnd Hej Hi).
  - destruct Heff as [[-> Hsame] | (s & _ & -> & _ & Hf & Ht)].
    + rewrite Hsame in Hins. destruct (has_outcome Created t); lia.
    + rewrite Hf, Ht in Hins. rewrite length_app. cbn [length]. lia.
Qed.

Lemma run_distinct checks emails schedule base :
  Forall (valid_email checks) emails ->
  Forall storable emails ->
  NoDup emails ->
  forall (p : pool) w,
    distinct_inv emails p w ->
    length (rows (store w)) = (base + count_outcome Created p)%nat ->
    distinct_inv emails (fst (run checks schedule (p, w)))
                        (snd (run checks schedule (p, w))) /\
    length (rows (store (snd (run checks schedule (p, w)))))
      = (base + count_outcome Created (fst (run checks schedule (p, w))))%nat.
Proof.
  intros Hvalid Hstorable Hnd.
  induction schedule as [|ev schedule IH]; intros p w Hinv Hcount.
  - split; assumption.
  - rewrite run_cons.
    destruct (pool_step_distinct checks emails ev p w base Hvalid Hstorable
                Hnd Hinv Hcount)
      as [Hinv' Hcount'].
    destruct (pool_step checks ev (p, w)) as [p' w']. apply IH; assumption.
Qed.

Lemma count_all_created (p : pool) :
  Forall (fun t => has_outcome Created t = true) p ->
  count_outcome Created p = length p.
Proof.
  unfold count_outcome. induction 1 as [|t p Ht _ IH]; [reflexivity|].
  cbn. rewrite Ht. cbn. rewrite IH. reflexivity.
Qed.

Lemma requests_for_none_created emails :
  count_outcome Created (requests_for emails) = 0%nat.
Proof.
  unfold count_outcome, requests_for.
  induction emails as [|a l IH]; [reflexivity | exact IH].
Qed.

(** X11: requests in flight together for pairwise different valid emails
    that the database can store, none of them stored yet, with a value of
    the sequence left for each, do not disturb one another: under every
    schedule that lets each of them finish, every request is answered 201
    with a row for its own email that is in the table afterwards, and the
    table has grown by exactly one row per request. *)
Theorem distinct_requests_all_created checks emails schedule db :
  Forall (valid_email checks) emails ->
  Forall storable emails ->
  NoDup emails ->
  ids_below_seq db ->
  ids_left (Z.of_nat (length emails)) db ->
  Forall (fun e => ~ stored e db) emails ->
  complete (length emails) schedule ->
  let final := run checks schedule (requests_for emails, mkWorld db []) in
  Forall2 (fun e t => exists s,
             t = Finished (inr (created_response s)) /\
             email s = e /\
             In s (rows (store (snd final))))
          emails (fst final) /\
  length (rows (store (snd final))) = (length (rows db) + length emails)%nat.
Proof.
  intros Hvalid Hstorable Hnd Hids Hleft Hfresh Hc final.
  pose proof (requests_for_none_created emails) as Hzero.
  assert (distinct_inv emails (requests_for emails) (mkWorld db [])) as Hinit.
  { constructor; cbn [store].
    - unfold requests_for. apply length_map.
    - exact Hids.
    - rewrite Hzero, Nat.sub_0_r. exact Hleft.
    - intros i e t Hi Hl. rewrite (requests_for_lookup emails i e Hi) in Hl.
      injection Hl as <-. split; [reflexivity|]. split; [|discriminate].
      intros _. rewrite List.Forall_forall in Hfresh. apply Hfresh.
      apply list_elem_of_In. eapply list_elem_of_lookup_2. exact Hi. }
  destruct (run_distinct checks emails schedule (length (rows db)) Hvalid
              Hstorable Hnd (requests_for emails) (mkWorld db []) Hinit)
    as [[Hlen _ _ Htasks] Hcount].
  { cbn [store]. rewrite Hzero. lia. }
  fold final in Hlen, Htasks, Hcount.
  assert (forall i e t, emails !! i = Some e -> fst final !! i = Some t ->
            exists s, t = Finished (inr (created_response s)) /\
                      email s = e /\ In s (rows (store (snd final)))) as Hall.
  { intros i e t Hi Hl.
    destruct (run_progress checks schedule (requests_for emails)
                (mkWorld db []) i _ (requests_for_lookup emails i e Hi))
      as (t' & Ht' & Hle).
    fold final in Ht'. rewrite Hl in Ht'. injection Ht' as <-.
    assert (i < length emails)%nat as Hlt by (eapply lookup_lt_Some; exact Hi).
    specialize (Hc i Hlt). cbn [remaining] in Hle.
    destruct t as [| | |r]; cbn in Hle; try lia.
    destruct (Htasks i e (Finished r) Hi Hl) as (_ & _ & Hdone).
    destruct (Hdone r eq_refl) as (s & -> & Hs & Hin). eauto. }
  split.
  - apply Forall2_same_length_lookup_2; [symmetry; exact Hlen | exact Hall].
  - rewrite Hcount, count_all_created, Hlen; [reflexivity|].
    apply Forall_lookup. intros i t Hl.
    assert (exists e, emails !! i = Some e) as (e & Hi).
    { apply lookup_lt_is_Some. rewrite <- Hlen. eapply lookup_lt_Some.
      exact Hl. }
    destruct (Hall i e t Hi Hl) as (s & -> & _). reflexivity.
Qed.

Lemma distinct_requests_all_created_witness :
  length (rows (store (snd (run text_column_checks alternating
                              (requests_for ["a@example.com"; "b@example.com"],
                               mkWorld empty_db [])))))
    = 2%nat.
Proof.
  destruct (distinct_requests_all_created text_column_checks
              ["a@example.com"; "b@example.com"] alternating empty_db)
    as (_ & H).
  - repeat constructor.
  - repeat constructor.
  - apply NoDup_cons. split; [|apply NoDup_singleton].
    intros Hin. apply list_elem_of_singleton in Hin. discriminate.
  - constructor.
  - unfold ids_left, max_serial. cbn. lia.
  - repeat constructor; intros (r & [] & _).
  - exact alternating_complete.
  - exact H.
Defined.

(* ===================================================================== *)
(** ** The hook and the form against the server *)
(* ===================================================================== *)

Lemma parse_success_inv checks props v :
  insertSubscriberSchema checks (VObject props) = Success v ->
  get props "email" = VString (insert_email v) /\
  valid_email checks (insert_email v).
Proof.
  unfold insertSubscriberSchema.
  destruct (ZodString_parse checks ["email"] (get props "email")) as [s|]
    eqn:Hp; [|discriminate].
  intros [= <-]. cbn [insert_email].
  assert (email_rule checks (get props "email") = true) as Hr
    by (unfold email_rule; rewrite Hp; reflexivity).
  apply email_rule_success in Hr as (e & He & Hp').
  rewrite Hp' in Hp. injection Hp as ->. split; [exact He|].
  unfold valid_email, email_rule. rewrite <- He, Hp'. reflexivity.
Qed.

Lemma wire_parses_back checks data v :
  Client.validate checks data = Success v ->
  Server.validate checks (wire v) = Success v.
Proof.
  unfold Client.validate, Server.validate. cbn [input api_subscribers_create].
  intros Hp. destruct data; try discriminate.
  apply parse_success_inv in Hp as [_ Hv].
  destruct v as [e]. cbn [insert_email] in *. unfold wire.
  apply parse_picks_email; [reflexivity | exact Hv].
Qed.

Lemma rejected_create_keeps_rows v now db err db' :
  createSubscriber v now db = (inl err, db') ->
  id_seq db <= id_seq db' /\ rows db' = rows db.
Proof.
  unfold createSubscriber. intros Hc.
  pose proof (insert_appends v now db) as [_ Hle].
  destruct (insert_returning v now db) as [[e|rs] d] eqn:Hi; [|discriminate].
  injection Hc as _ <-.
  split; [exact Hle | exact (insert_rejected_keeps_rows _ _ _ _ _ Hi)].
Qed.

(** The five ways a submission can go when the hook talks to the server. *)
Lemma mutationFn_serve_cases checks now data w :
  (exists errors,
     Client.validate checks data = Failure errors /\
     mutationFn checks (serve checks now) data w
       = (inl (ClientZodError errors), w)) \/
  (exists v,
     Client.validate checks data = Success v /\
     stored (insert_email v) (store w) /\
     mutationFn checks (serve checks now) data w
       = (inl (Error "Email already subscribed"),
          mkWorld (store w)
            (calls w ++ [CallGetSubscriberByEmail (insert_email v)])%list)) \/
  (exists v,
     Client.validate checks data = Success v /\
     ~ stored (insert_email v) (store w) /\
     has_nul (insert_email v) = true /\
     mutationFn checks (serve checks now) data w
       = (inl (Error "Failed to subscribe"),
          mkWorld (store w)
            (calls w ++ [CallGetSubscriberByEmail (insert_email v)])%list)) \/
  (exists v s db',
     Client.validate checks data = Success v /\
     ~ stored (insert_email v) (store w) /\
     has_nul (insert_email v) = false /\
     createSubscriber v now (store w) = (inr (Some s), db') /\
     mutationFn checks (serve checks now) data w
       = (inr (SubscriberJson (Some s)),
          mkWorld db'
            (calls w ++ [CallGetSubscriberByEmail (insert_email v);
                         CallCreateSubscriber v])%list)) \/
  (exists v err db',
     Client.validate checks data = Success v /\
     ~ stored (insert_email v) (store w) /\
     has_nul (insert_email v) = false /\
     createSubscriber v now (store w) = (inl err, db') /\
     mutationFn checks (serve checks now) data w
       = (inl (Error "Failed to subscribe"),
          mkWorld db'
            (calls w ++ [CallGetSubscriberByEmail (insert_email v);
                         CallCreateSubscriber v])%list)).
Proof.
  unfold mutationFn.
  destruct (Client.validate checks data) as [v|errors] eqn:Hc.
  - right. pose proof (wire_parses_back checks data v Hc) as Hs.
    unfold serve.
    destruct (handler_cases checks now (wire v) w)
      as [(first & rest & Hv & _) | [(v' & Hv & Hst & H) |
          [(v' & Hv & Hn & Hz & H) |
           [(v' & s & db' & Hv & Hn & Hz & Hcr & H) |
            (v' & err & db' & Hv & Hn & Hz & Hcr & H)]]]];
      rewrite Hs in Hv; try discriminate; injection Hv as <-; rewrite H; cbn.
    + left. exists v. auto.
    + right. left. exists v. auto.
    + right. right. left. exists v, s, db'. auto.
    + right. right. right. exists v, err, db'. auto.
  - left. exists errors. auto.
Qed.

(** X12: the [Error]s the hook throws when it talks to the server. The
    data passed the hook's own validation, and the message is one of two:
    "Email already subscribed", thrown for an email that a row holds, the
    table being left as it was; or "Failed to subscribe", thrown when the
    server rethrew an error of the database for an email that no row
    holds. The rows are what they were in both cases, and the hook never
    relays a validation message of the server: the server does not answer
    400 to what the hook sends. With no other request in flight, ids that
    came out of a sequence that has a value left and an email the database
    can store, the only [Error] is "Email already subscribed". *)
Theorem hook_error_is_the_conflict checks now data w msg :
  fst (mutationFn checks (serve checks now) data w) = inl (Error msg) ->
  rows (store (snd (mutationFn checks (serve checks now) data w)))
    = rows (store w) /\
  exists v,
    Client.validate checks data = Success v /\
    ((msg = "Email already subscribed" /\
      stored (insert_email v) (store w) /\
      store (snd (mutationFn checks (serve checks now) data w)) = store w) \/
     (msg = "Failed to subscribe" /\
      ~ stored (insert_email v) (store w) /\
      exists err, fst (handler checks now (wire v) w)
                  = inl (DatabaseError err))) /\
    (ids_below_seq (store w) -> ids_left 1 (store w) ->
     storable (insert_email v) ->
     msg = "Email already subscribed").
Proof.
  assert (forall v err,
            Client.validate checks data = Success v ->
            fst (handler checks now (wire v) w) = inl err ->
            ids_below_seq (store w) -> ids_left 1 (store w) ->
            storable (insert_email v) -> False) as Halone.
  { intros v err Hv Hh Hids Hleft Hst.
    destruct (handler_alone_answers checks now (wire v) w Hids Hleft)
      as (response & Hr).
    - intros v' Hv'. rewrite (wire_parses_back checks data v Hv) in Hv'.
      injection Hv' as <-. exact Hst.
    - congruence. }
  destruct (mutationFn_serve_cases checks now data w)
    as [(errors & _ & H) | [(v & Hv & Hs & H) | [(v & Hv & Hn & Hz & H) |
        [(v & s & db' & _ & _ & _ & _ & H) |
         (v & err & db' & Hv & Hn & Hz & Hc & H)]]]];
    rewrite H; cbn [fst snd store]; try discriminate; intros [= <-].
  - split; [reflexivity|]. exists v. split; [exact Hv|].
    split; [left; auto | reflexivity].
  - assert (fst (handler checks now (wire v) w)
            = inl (DatabaseError InvalidByteSequence)) as Hh.
    { unfold wire.
      destruct (handler_cases checks now
                  (VObject [("email", VString (insert_email v))]) w)
        as [(first & rest & Hv' & _) | [(v' & Hv' & Hs' & _) |
            [(v' & Hv' & _ & _ & ->) |
             [(v' & s & db' & Hv' & _ & Hz' & _) |
              (v' & err & db' & Hv' & _ & Hz' & _)]]]];
        pose proof (wire_parses_back checks data v Hv) as Hw;
        unfold wire in Hw; rewrite Hw in Hv';
        try discriminate; injection Hv' as <-;
        [contradiction | reflexivity | congruence | congruence]. }
    split; [reflexivity|]. exists v. split; [exact Hv|]. split.
    + right. split; [reflexivity|]. split; [exact Hn|]. eauto.
    + intros Hids Hleft Hst. exfalso. exact (Halone v _ Hv Hh Hids Hleft Hst).
  - assert (fst (handler checks now (wire v) w) = inl (DatabaseError err))
      as Hh.
    { unfold wire.
      destruct (handler_cases checks now
                  (VObject [("email", VString (insert_email v))]) w)
        as [(first & rest & Hv' & _) | [(v' & Hv' & Hs' & _) |
            [(v' & Hv' & _ & Hz' & _) |
             [(v' & s & db'' & Hv' & _ & _ & Hc' & _) |
              (v' & err' & db'' & Hv' & _ & _ & Hc' & ->)]]]];
        pose proof (wire_parses_back checks data v Hv) as Hw;
        unfold wire in Hw; rewrite Hw in Hv';
        try discriminate; injection Hv' as <-;
        [contradiction | congruence | congruence |].
      rewrite Hc in Hc'. injection Hc' as <- _. reflexivity. }
    split; [exact (proj2 (rejected_create_keeps_rows v now (store w) err db'
                            Hc))|].
    exists v. split; [exact Hv|]. split.
    + right. split; [reflexivity|]. split; [exact Hn|]. eauto.
    + intros Hids Hleft Hst. exfalso. exact (Halone v _ Hv Hh Hids Hleft Hst).
Qed.

Lemma hook_error_is_the_conflict_witness :
  exists v,
    Client.validate text_column_checks (email_body "a@example.com") = Success v /\
    stored (insert_email v) one_subscriber.
Proof.
  destruct (hook_error_is_the_conflict text_column_checks 2000
              (email_body "a@example.com") (mkWorld one_subscriber [])
              "Email already subscribed" eq_refl)
    as (_ & v & Hv & [(_ & Hs & _) | (Hm & _)] & _).
  - exists v. split; [exact Hv | exact Hs].
  - discriminate Hm.
Defined.

(** X13: when the hook resolves against the server, what it resolves with
    is the row that was appended to the table for the validated email. *)
Theorem hook_resolves_with_stored_row checks now data w b :
  fst (mutationFn checks (serve checks now) data w) = inr b ->
  exists v s,
    Client.validate checks data = Success v /\
    b = SubscriberJson (Some s) /\
    email s = insert_email v /\
    rows (store (snd (mutationFn checks (serve checks now) data w)))
      = (rows (store w) ++ [s])%list.
Proof.
  destruct (mutationFn_serve_cases checks now data w)
    as [(errors & _ & H) | [(v & _ & _ & H) | [(v & _ & _ & _ & H) |
        [(v & s & db' & Hv & _ & _ & Hc & H) |
         (v & err & db' & _ & _ & _ & _ & H)]]]];
    rewrite H; cbn [fst snd store]; try discriminate.
  intros [= <-].
  destruct (created_row_is_found v now (store w) s db' Hc) as (Hs & Hrows & _).
  exists v, s. repeat split; auto. rewrite Hs. reflexivity.
Qed.

Lemma hook_resolves_with_stored_row_witness :
  exists v s,
    Client.validate text_column_checks (email_body "a@example.com") = Success v /\
    email s = insert_email v /\
    rows one_subscriber = (rows empty_db ++ [s])%list.
Proof.
  destruct (hook_resolves_with_stored_row text_column_checks 1000
              (email_body "a@example.com") (mkWorld empty_db [])
              (SubscriberJson
                 (Some (mkSubscriber 1 "a@example.com" (Some 1000))))
              eq_refl)
    as (v & s & H1 & _ & H2 & H3).
  exists v, s. split; [exact H1 | split; [exact H2 | exact H3]].
Defined.

(** What one attempt does to the rows. *)
Lemma attempt_rows checks now data w :
  (exists v s,
     Client.validate checks data = Success v /\
     email s = insert_email v /\
     fst (mutationFn checks (serve checks now) data w)
       = inr (SubscriberJson (Some s)) /\
     rows (store (snd (mutationFn checks (serve checks now) data w)))
       = (rows (store w) ++ [s])%list) \/
  (exists f,
     fst (mutationFn checks (serve checks now) data w) = inl f /\
     rows (store (snd (mutationFn checks (serve checks now) data w)))
       = rows (store w)).
Proof.
  destruct (mutationFn_serve_cases checks now data w)
    as [(errors & _ & H) | [(v & _ & _ & H) | [(v & _ & _ & _ & H) |
        [(v & s & db' & Hv & _ & _ & Hc & H) |
         (v & err & db' & _ & _ & _ & Hc & H)]]]];
    rewrite H; cbn [fst snd store].
  - right. eauto.
  - right. eauto.
  - right. eauto.
  - left.
    destruct (created_row_is_found v now (store w) s db' Hc) as (Hs & Hrows & _).
    exists v, s. repeat split; auto. rewrite Hs. reflexivity.
  - right. eexists. split; [reflexivity|].
    exact (proj2 (rejected_create_keeps_rows v now (store w) err db' Hc)).
Qed.

Lemma retry_rows checks now1 now2 data w :
  (exists v s,
     Client.validate checks data = Success v /\
     email s = insert_email v /\
     fst (mutate checks (serve checks now1) (serve checks now2) data w)
       = inr (SubscriberJson (Some s)) /\
     rows (store (snd (mutate checks (serve checks now1) (serve checks now2)
                         data w)))
       = (rows (store w) ++ [s])%list) \/
  (exists f,
     fst (mutate checks (serve checks now1) (serve checks now2) data w)
       = inl f /\
     rows (store (snd (mutate checks (serve checks now1) (serve checks now2)
                         data w)))
       = rows (store w)).
Proof.
  unfold mutate.
  destruct (attempt_rows checks now1 data w)
    as [(v & s & Hv & Hs & Hr & Hrows) | (f & Hr & Hrows)];
    destruct (mutationFn checks (serve checks now1) data w) as [r1 w1];
    cbn [fst snd] in *; subst r1.
  - left. exists v, s. auto.
  - destruct (attempt_rows checks now2 data w1)
      as [(v & s & Hv & Hs & Hr & Hrows2) | (f2 & Hr & Hrows2)].
    + left. exists v, s. rewrite Hrows2, Hrows. auto.
    + right. exists f2. rewrite Hrows2, Hrows. auto.
Qed.

(** X14: with the retry of the query client, a submission still appends at
    most one row: [mutate] resolves exactly when one row for the validated
    email was appended, and when it throws, after its second attempt, the
    rows are what they were. *)
Theorem retry_never_subscribes_twice checks now1 now2 data w :
  (exists v s,
     Client.validate checks data = Success v /\
     email s = insert_email v /\
     fst (mutate checks (serve checks now1) (serve checks now2) data w)
       = inr (SubscriberJson (Some s)) /\
     rows (store (snd (mutate checks (serve checks now1) (serve checks now2)
                         data w)))
       = (rows (store w) ++ [s])%list) \/
  (exists f,
     fst (mutate checks (serve checks now1) (serve checks now2) data w)
       = inl f /\
     rows (store (snd (mutate checks (serve checks now1) (serve checks now2)
                         data w)))
       = rows (store w)).
Proof. exact (retry_rows checks now1 now2 data w). Qed.

(** X15: the form against the server: an empty field sends nothing and
    changes nothing; otherwise the field is emptied exactly when a row
    holding the typed address was appended, and when the field keeps its
    text the rows are what they were. *)
Theorem form_cleared_iff_stored checks now1 now2 typed w :
  let after :=
    handleSubscribe checks (serve checks now1) (serve checks now2) typed w in
  (typed = EmptyString -> after = (typed, w)) /\
  ((typed <> EmptyString /\ fst after = EmptyString /\
    exists s, email s = typed /\
              rows (store (snd after)) = (rows (store w) ++ [s])%list) \/
   (fst after = typed /\ rows (store (snd after)) = rows (store w))).
Proof.
  cbv zeta. unfold handleSubscribe.
  destruct (String.eqb_spec typed EmptyString) as [-> | Hne].
  - split; [reflexivity|]. right. split; reflexivity.
  - split; [intros H; contradiction|].
    destruct (retry_rows checks now1 now2
                (VObject [("email", VString typed)]) w)
      as [(v & s & Hv & Hs & Hr & Hrows) | (f & Hr & Hrows)];
      destruct (mutate checks (serve checks now1) (serve checks now2)
                  (VObject [("email", VString typed)]) w) as [r w'];
      cbn [fst snd] in *; subst r.
    + left. split; [exact Hne|]. split; [reflexivity|].
      exists s. split; [|exact Hrows]. rewrite Hs.
      apply parse_success_inv in Hv as [Hget _]. cbn in Hget. congruence.
    + right. split; [reflexivity | exact Hrows].
Qed.

(** X16: the retry is visible on the server: submitting a stored address
    through [mutate] looks it up twice, never calls the insert, leaves the
    table as it was and throws "Email already subscribed". *)
Theorem duplicate_submission_is_looked_up_twice checks now1 now2 props e w :
  get props "email" = VString e ->
  valid_email checks e ->
  stored e (store w) ->
  mutate checks (serve checks now1) (serve checks now2) (VObject props) w
    = (inl (Error "Email already subscribed"),
       mkWorld (store w)
         (calls w ++ [CallGetSubscriberByEmail e;
                      CallGetSubscriberByEmail e])%list).
Proof.
  intros Hget Hv Hs.
  assert (forall now w0, store w0 = store w ->
            mutationFn checks (serve checks now) (VObject props) w0
            = (inl (Error "Email already subscribed"),
               mkWorld (store w0)
                 (calls w0 ++ [CallGetSubscriberByEmail e])%list)) as Hone.
  { intros now w0 Hst. unfold mutationFn, Client.validate.
    cbn [input api_subscribers_create].
    rewrite (parse_picks_email checks props e Hget Hv). unfold serve, wire.
    cbn [insert_email].
    rewrite (handler_conflict checks now _ e w0 (email_body_get e) Hv)
      by (rewrite Hst; exact Hs).
    reflexivity. }
  unfold mutate. rewrite (Hone now1 w eq_refl).
  rewrite Hone by reflexivity. cbn [store calls].
  rewrite <- app_assoc. reflexivity.
Qed.

Lemma duplicate_submission_is_looked_up_twice_witness :
  mutate text_column_checks (serve text_column_checks 2000)
    (serve text_column_checks 3000) (email_body "a@example.com")
    (mkWorld one_subscriber [])
  = (inl (Error "Email already subscribed"),
     mkWorld one_subscriber
       [CallGetSubscriberByEmail "a@example.com";
        CallGetSubscriberByEmail "a@example.com"]).
Proof.
  exact (duplicate_submission_is_looked_up_twice text_column_checks 2000 3000
           [("email", VString "a@example.com")] "a@example.com"
           (mkWorld one_subscriber []) eq_refl eq_refl one_subscriber_stored).
Defined.

(* ===================================================================== *)
(** ** More on [buildUrl] *)
(* ===================================================================== *)

(** X17: for parameters that are numbers, or strings without a dollar
    sign, [buildUrl] is the plain substitution: entry by entry, in the
    order of [Object.entries], the first [":key"] of the current url gives
    way to the string form of the value, and an entry without placeholder
    changes nothing. *)
Theorem buildUrl_literal_without_dollar path entries :
  Forall (fun kv => is_number (snd kv) = true \/
                    has_dollar (String_ (snd kv)) = false) entries ->
  buildUrl path (Some entries) = buildUrl_described path (Some entries).
Proof.
  intros H. apply buildUrl_plain. eapply Forall_impl; [exact H|].
  intros [key v] [Hn | Hd]; [|exact Hd]. cbn [snd] in *.
  destruct v; [discriminate | apply number_has_no_dollar].
Qed.

Lemma buildUrl_literal_without_dollar_witness :
  buildUrl "/api/users/:id/posts/:post" (Some [("id", PNumber 123);
                                               ("post", PString "hello")])
  = "/api/users/123/posts/hello".
Proof.
  refine (eq_trans
            (buildUrl_literal_without_dollar "/api/users/:id/posts/:post"
               [("id", PNumber 123); ("post", PString "hello")] _) _).
  - constructor; [left; reflexivity|].
    constructor; [right; reflexivity | constructor].
  - reflexivity.
Defined.

Lemma index_without_first_char c rest s :
  has_char c s = false -> index 0 (String c rest) s = None.
Proof.
  induction s as [|a s IH]; [reflexivity|].
  cbn [has_char]. intros H. apply orb_false_elim in H as [Ha Hs].
  cbn [index]. rewrite (IH Hs).
  assert (String.prefix (String c rest) (String a s) = false) as ->;
    [|reflexivity].
  cbn [String.prefix]. destruct (ascii_dec c a) as [<- | _]; [|reflexivity].
  rewrite Ascii.eqb_refl in Ha. discriminate.
Qed.

(** X18: a path without a colon has no placeholder: [buildUrl] returns it
    unchanged whatever the parameters; so the path of the contract,
    "/api/subscribers", is a fixed point of [buildUrl]. *)
Theorem buildUrl_fixes_colon_free_paths path params :
  has_char ":" path = false ->
  buildUrl path params = path.
Proof.
  intros H. destruct params as [entries|]; [|reflexivity]. cbn [buildUrl].
  induction entries as [|[key v] entries IH]; [reflexivity|].
  cbn [fold_left substitute]. unfold includes, indexOf.
  change (":" +:+ key) with (String ":" key).
  rewrite (index_without_first_char ":" key path H). exact IH.
Qed.

Lemma buildUrl_fixes_colon_free_paths_witness :
  buildUrl (Routes.path (api_subscribers_create text_column_checks))
    (Some [("id", PString "$&"); ("api", PNumber 1)])
  = "/api/subscribers".
Proof.
  exact (buildUrl_fixes_colon_free_paths "/api/subscribers"
           (Some [("id", PString "$&"); ("api", PNumber 1)]) eq_refl).
Defined.

Lemma substring_whole s : substring 0 (String.length s) s = s.
Proof. induction s as [|a s IH]; [reflexivity|]. simpl. f_equal. exact IH. Qed.

Lemma substring_prefix pre s : substring 0 (String.length pre) (pre +:+ s) = pre.
Proof.
  induction pre as [|a pre IH].
  - rewrite append_nil. destruct s; reflexivity.
  - rewrite append_cons. simpl. f_equal. exact IH.
Qed.

Lemma drop_prefix_append pre s : drop_prefix (String.length pre) (pre +:+ s) = s.
Proof.
  unfold drop_prefix. induction pre as [|a pre IH].
  - rewrite append_nil. simpl. rewrite Nat.sub_0_r. apply substring_whole.
  - rewrite append_cons. simpl. exact IH.
Qed.

Lemma append_length a b :
  String.length (a +:+ b) = (String.length a + String.length b)%nat.
Proof.
  induction a as [|c a IH]; [reflexivity|].
  rewrite append_cons. simpl. f_equal. exact IH.
Qed.

Lemma append_assoc a b c : (a +:+ b) +:+ c = a +:+ (b +:+ c).
Proof.
  induction a as [|x a IH]; [reflexivity|].
  rewrite !append_cons. f_equal. exact IH.
Qed.

(** X19: one entry replaces one occurrence: when the first [":key"] of the
    path sits after [before] and [rest] follows it, the result is
    [before], the value, [rest]; [rest] is copied as it is, further
    occurrences of the placeholder included. *)
Theorem buildUrl_replaces_first_occurrence_only before key v rest :
  indexOf (before +:+ (":" +:+ key) +:+ rest) (":" +:+ key)
    = Some (String.length before) ->
  has_dollar (String_ v) = false ->
  buildUrl (before +:+ (":" +:+ key) +:+ rest) (Some [(key, v)])
    = before +:+ String_ v +:+ rest.
Proof.
  intros Hi Hd. cbn [buildUrl fold_left substitute].
  unfold includes, replace. rewrite Hi.
  rewrite (GetSubstitution_plain _ _ _ _ Hd).
  rewrite substring_prefix.
  rewrite <- append_length, <- (append_assoc before (":" +:+ key) rest).
  rewrite drop_prefix_append. reflexivity.
Qed.

Lemma buildUrl_replaces_first_occurrence_only_witness :
  buildUrl "/users/:id/friends/:id" (Some [("id", PNumber 7)])
  = "/users/7/friends/:id".
Proof.
  exact (buildUrl_replaces_first_occurrence_only "/users/" "id" (PNumber 7)
           "/friends/:id" eq_refl eq_refl).
Defined.






(* ===================================================================== *)
(** ** The wallet label *)
(* ===================================================================== *)

Lemma substring_length s : forall n m,
  String.length (substring n m s) = Nat.min m (String.length s - n).
Proof.
  induction s as [|a s IH]; intros [|n] [|m]; cbn; try reflexivity.
  - rewrite IH. rewrite Nat.sub_0_r. reflexivity.
  - rewrite IH. reflexivity.
  - rewrite IH. reflexivity.
Qed.

Lemma substring_split s : forall n,
  (n <= String.length s)%nat ->
  s = substring 0 n s +:+ substring n (String.length s - n) s.
Proof.
  induction s as [|a s IH]; intros [|n] Hn; simpl in *.
  - reflexivity.
  - lia.
  - rewrite substring_whole. reflexivity.
  - rewrite append_cons. f_equal. apply IH. lia.
Qed.

Lemma substring_add s : forall n a b,
  substring n (a + b) s = substring n a s +:+ substring (n + a) b s.
Proof.
  induction s as [|c s IH]; intros n a b.
  - destruct n, a, b; reflexivity.
  - destruct n as [|n]; [destruct a as [|a]|]; simpl.
    + reflexivity.
    + rewrite append_cons. f_equal. exact (IH 0%nat a b).
    + exact (IH n a b).
Qed.

(** X20: the label of a connected wallet is at most thirteen characters:
    up to six from the start of the key, three dots, up to four from its
    end; for a key of ten characters or more (every base58 public key) the
    label shows the first six and the last four and leaves out exactly the
    characters in between. *)
Theorem wallet_label_shape key :
  let n := String.length key in
  String.length (wallet_label key) = (Nat.min 6 n + 3 + Nat.min 4 n)%nat /\
  ((10 <= n)%nat ->
   exists middle,
     key = slice key 0 (Some 6) +:+ middle +:+ slice key (-4) None /\
     String.length middle = (n - 10)%nat /\
     String.length (slice key 0 (Some 6)) = 6%nat /\
     String.length (slice key (-4) None) = 4%nat).
Proof.
  cbv zeta. set (n := String.length key).
  assert (slice key 0 (Some 6) = substring 0 (Nat.min 6 n) key) as H6.
  { unfold slice. fold n. cbn [Z.ltb Z.compare].
    replace (Z.to_nat (Z.min 0 (Z.of_nat n))) with 0%nat by lia.
    replace (Z.to_nat (Z.max (Z.min 6 (Z.of_nat n) - Z.min 0 (Z.of_nat n)) 0))
      with (Nat.min 6 n) by lia.
    reflexivity. }
  assert (slice key (-4) None = substring (n - Nat.min 4 n) (Nat.min 4 n) key)
    as H4.
  { unfold slice. fold n. cbn [Z.ltb Z.compare].
    replace (Z.to_nat (Z.max (Z.of_nat n + -4) 0)) with (n - Nat.min 4 n)%nat
      by lia.
    replace (Z.to_nat (Z.max (Z.of_nat n - Z.max (Z.of_nat n + -4) 0) 0))
      with (Nat.min 4 n) by lia.
    reflexivity. }
  split.
  - unfold wallet_label. rewrite H6, H4, !append_length, !substring_length.
    fold n. cbn [String.length]. lia.
  - intros Hn. rewrite H6, H4.
    replace (Nat.min 6 n) with 6%nat by lia.
    replace (Nat.min 4 n) with 4%nat by lia.
    exists (substring 6 (n - 10) key). split; [|split; [|split]].
    + rewrite (substring_split key 6) at 1 by (fold n; lia). fold n.
      f_equal. replace (n - 6)%nat with ((n - 10) + 4)%nat by lia.
      rewrite substring_add. f_equal. f_equal. lia.
    + rewrite substring_length. fold n. lia.
    + rewrite substring_length. fold n. lia.
    + rewrite substring_length. fold n. lia.
Qed.

